(** * Metashell: forward trace iterator and metaprogram builder

    A shallow embedding of [forward_trace_iterator] (the traversal behind
    the forward trace of the metadebugger) and of the event consumer
    [metaprogram_builder], with the properties their specification states.

    Conventions of the embedding:
    - vertex and edge descriptors are indices ([nat]);
    - [int] depths are mathematical integers ([Z]); a depth is only ever
      incremented by one per level of the traversal, and signed overflow
      is undefined behaviour in C++, so no wrap-around is modelled;
    - [std::stack] is a list whose head is the top of the stack;
    - reading through the null [_mp] pointer of a default-constructed
      iterator, or indexing the discovered array out of range, is undefined
      behaviour: the operations return [None] there. *)

From stdpp Require Import base option list strings gmap.
From Stdlib Require Import ZArith Lia.

Local Open Scope Z_scope.

(** ** The metaprogram as the iterator sees it *)

Abbreviation vertex_descriptor := nat.
Abbreviation edge_descriptor := nat.
Abbreviation optional_edge_descriptor := (option edge_descriptor).

(** Modelled from the spec: the declaration of [data::metaprogram::mode_t]
    is not part of the sources; the specification describes it as a
    two-case enumeration, [full] and [minimized]. The iterator only tests
    [get_mode() != full]. *)
Inductive mode_t := full | minimized.

Global Instance mode_t_eq_dec : EqDecision mode_t.
Proof. solve_decision. Defined.

Section ForwardTrace.
(** [data::frame] is declared outside the sources at hand; the iterator
    only copies frames around, so it is a parameter. Its inhabitant stands
    for the default-constructed frame. *)
Context {frame : Type} `{!Inhabited frame}.

(** [data::call_graph_node]: a frame, its depth and its child count. *)
Record call_graph_node := mk_call_graph_node {
  node_frame : frame;
  node_depth : Z;
  node_number_of_children : nat
}.

(** The member functions of [data::metaprogram] that the iterator calls.
    [discovered] is [get_state().discovered], a boolean array indexed by
    vertex. *)
Record metaprogram := mk_metaprogram {
  get_mode : mode_t;
  get_root_vertex : vertex_descriptor;
  get_root_frame : frame;
  get_current_edge : optional_edge_descriptor;
  get_target : edge_descriptor → vertex_descriptor;
  to_frame : edge_descriptor → frame;
  get_enabled_out_degree : vertex_descriptor → nat;
  get_filtered_out_edges : vertex_descriptor → list edge_descriptor;
  discovered : list bool
}.

(** ** forward_trace_iterator *)

Record forward_trace_iterator := mk_iterator {
  _finished : bool;
  _max_depth : option Z;
  _mp : option metaprogram;
  _discovered : list bool;
  _to_visit : list (optional_edge_descriptor * Z);
  _current : call_graph_node
}.

Definition set_finished (it : forward_trace_iterator) (b : bool) :=
  mk_iterator b (_max_depth it) (_mp it) (_discovered it) (_to_visit it)
              (_current it).
Definition set_discovered (it : forward_trace_iterator) (d : list bool) :=
  mk_iterator (_finished it) (_max_depth it) (_mp it) d (_to_visit it)
              (_current it).
Definition set_to_visit (it : forward_trace_iterator)
    (s : list (optional_edge_descriptor * Z)) :=
  mk_iterator (_finished it) (_max_depth it) (_mp it) (_discovered it) s
              (_current it).
Definition set_current (it : forward_trace_iterator) (c : call_graph_node) :=
  mk_iterator (_finished it) (_max_depth it) (_mp it) (_discovered it)
              (_to_visit it) c.

(** [edge_ ? _mp->get_target( *edge_) : _mp->get_root_vertex()] *)
Definition vertex_of (mp : metaprogram) (edge_ : optional_edge_descriptor)
    : vertex_descriptor :=
  match edge_ with
  | Some e => get_target mp e
  | None => get_root_vertex mp
  end.

(** [edge_ ? _mp->to_frame( *edge_) : _mp->get_root_frame()] *)
Definition frame_of (mp : metaprogram) (edge_ : optional_edge_descriptor)
    : frame :=
  match edge_ with
  | Some e => to_frame mp e
  | None => get_root_frame mp
  end.

(** [_max_depth && *_max_depth <= depth_] *)
Definition depth_reached (max_depth : option Z) (depth_ : Z) : bool :=
  match max_depth with
  | Some m => m <=? depth_
  | None => false
  end.

(** [!_max_depth || *_max_depth > depth_] *)
Definition depth_left (max_depth : option Z) (depth_ : Z) : bool :=
  match max_depth with
  | Some m => m >? depth_
  | None => true
  end.

(** The loop [for (out_edge : edges) _to_visit.push(make_tuple(out_edge,
    depth_ + 1))]: each push goes on top of the previous ones. *)
Definition push_edges (edges : list edge_descriptor) (depth_ : Z)
    (s : list (optional_edge_descriptor * Z))
    : list (optional_edge_descriptor * Z) :=
  fold_left (λ st out_edge, (Some out_edge, depth_ + 1) :: st) edges s.

Definition visit (it : forward_trace_iterator)
    (edge_ : optional_edge_descriptor) (depth_ : Z)
    : option forward_trace_iterator :=
  mp ← _mp it;
  let vertex := vertex_of mp edge_ in
  d ← _discovered it !! vertex;
  let it1 :=
    set_current it
      (mk_call_graph_node (frame_of mp edge_) depth_
         (if d || depth_reached (_max_depth it) depth_
          then 0%nat
          else get_enabled_out_degree mp vertex)) in
  if negb d then
    let it2 :=
      if bool_decide (get_mode mp ≠ full)
      then set_discovered it1 (<[vertex := true]> (_discovered it1))
      else it1 in
    if depth_left (_max_depth it2) depth_ then
      Some (set_to_visit it2
              (push_edges (get_filtered_out_edges mp vertex) depth_
                          (_to_visit it2)))
    else Some it2
  else Some it1.

(** [forward_trace_iterator::forward_trace_iterator()] *)
Definition default_iterator : forward_trace_iterator :=
  mk_iterator true None None [] []
              (mk_call_graph_node inhabitant 0 0%nat).

(** [forward_trace_iterator::forward_trace_iterator(mp_, max_depth_)] *)
Definition make_iterator (mp_ : metaprogram) (max_depth_ : option Z)
    : option forward_trace_iterator :=
  visit (mk_iterator false max_depth_ (Some mp_) (discovered mp_) []
                     (mk_call_graph_node inhabitant 0 0%nat))
        (get_current_edge mp_) 0.

(** [operator++] *)
Definition increment (it : forward_trace_iterator)
    : option forward_trace_iterator :=
  match _to_visit it with
  | [] => Some (set_finished it true)
  | (edge, depth) :: rest => visit (set_to_visit it rest) edge depth
  end.

(** [operator*] *)
Definition dereference (it : forward_trace_iterator) : call_graph_node :=
  _current it.

(** [operator==] *)
Definition iterator_eq (it i_ : forward_trace_iterator) : bool :=
  bool_decide (_finished it = _finished i_).

(** [n] calls of [operator++] in a row. *)
Fixpoint advance (n : nat) (it : forward_trace_iterator)
    : option forward_trace_iterator :=
  match n with
  | O => Some it
  | S n' => it' ← increment it; advance n' it'
  end.

(** The two-iterator range idiom
    [for (; !(it == end); ++it) out.push_back( *it)] with the
    default-constructed iterator as [end]; [None] when the loop needs
    more than [fuel] rounds or runs into undefined behaviour. *)
Fixpoint collect (fuel : nat) (it : forward_trace_iterator)
    : option (list call_graph_node) :=
  if iterator_eq it default_iterator then Some []
  else match fuel with
       | O => None
       | S n => it' ← increment it;
                rest ← collect n it';
                Some (dereference it :: rest)
       end.

End ForwardTrace.

Arguments call_graph_node : clear implicits.
Arguments metaprogram : clear implicits.
Arguments forward_trace_iterator : clear implicits.

(** ** Paths, traces and measures used to state the properties *)

Section ForwardTraceNotions.
Context {frame : Type} `{!Inhabited frame}.
Implicit Types (mp : metaprogram frame) (it : forward_trace_iterator frame).

(** The array of discovered marks has an entry for the root and for the
    target of every edge: the graph has [length (discovered mp)] vertices. *)
Definition in_range mp : Prop :=
  (get_root_vertex mp < length (discovered mp))%nat ∧
  ∀ e, (get_target mp e < length (discovered mp))%nat.

(** No vertex is marked in the metaprogram's own discovered array. *)
Definition nothing_discovered mp : Prop :=
  ∀ v b, discovered mp !! v = Some b → b = false.

(** [rank] decreases along every enabled edge: the graph is acyclic. *)
Definition acyclic mp (rank : vertex_descriptor → nat) : Prop :=
  ∀ v e, e ∈ get_filtered_out_edges mp v →
         (rank (get_target mp e) < rank v)%nat.

(** A path is the list of enabled edges followed from a vertex. *)
Inductive path mp : vertex_descriptor → list edge_descriptor → Prop :=
| path_nil v : path mp v []
| path_cons v e p :
    e ∈ get_filtered_out_edges mp v →
    path mp (get_target mp e) p →
    path mp v (e :: p).

(** The paths of at most [n] edges that start at [v]. *)
Fixpoint paths_from mp (n : nat) (v : vertex_descriptor)
    : list (list edge_descriptor) :=
  [] :: match n with
        | O => []
        | S n' =>
            e ← get_filtered_out_edges mp v;
            (cons e) <$> paths_from mp n' (get_target mp e)
        end.

(** Runs [operator++] as long as more than [h] entries are pending, at most
    [fuel] times. Returns every entry popped on the way with the node its
    visit produced, and the state reached. *)
Fixpoint drain (fuel h : nat) it
    : option (list ((optional_edge_descriptor * Z) * call_graph_node frame) *
              forward_trace_iterator frame) :=
  match fuel, _to_visit it with
  | S n, entry :: _ =>
      if decide (h < length (_to_visit it))%nat then
        it' ← increment it;
        r ← drain n h it';
        Some ((entry, dereference it') :: r.1, r.2)
      else Some ([], it)
  | _, _ => Some ([], it)
  end.

(** The entries [visit] pushes for the out-edges [edges], top first. *)
Definition pushed (edges : list edge_descriptor) (depth_ : Z)
    : list (optional_edge_descriptor * Z) :=
  reverse ((λ e, (Some e, depth_ + 1)) <$> edges).

(** Number of nodes of the subtree unfolded below [v] when [j] more levels
    may be expanded. *)
Fixpoint subtree_bound mp (j : nat) (v : vertex_descriptor) : nat :=
  S (match j with
     | O => 0
     | S j' =>
         sum_list_with (λ e, subtree_bound mp j' (get_target mp e))
                       (get_filtered_out_edges mp v)
     end).

(** Work left for the pending entries under the depth ceiling [d]. *)
Definition pending_bound mp (d : Z) (s : list (optional_edge_descriptor * Z))
    : nat :=
  sum_list_with (λ en, subtree_bound mp (Z.to_nat (d - en.2))
                                     (vertex_of mp en.1)) s.

(** Work left for the vertices not yet marked; [i] is the index of the first
    element of the array slice. *)
Fixpoint undiscovered_weight mp (i : nat) (l : list bool) : nat :=
  match l with
  | [] => 0
  | b :: l' =>
      ((if b then 0 else S (length (get_filtered_out_edges mp i)))
       + undiscovered_weight mp (S i) l')%nat
  end.

(** What every state of a traversal under the ceiling [d] satisfies. *)
Definition ceiling_invariant (d : Z) it : Prop :=
  _max_depth it = Some d ∧
  0 ≤ node_depth (_current it) ∧
  (0 ≤ d → node_depth (_current it) ≤ d) ∧
  (d ≤ node_depth (_current it) →
   node_number_of_children (_current it) = 0%nat) ∧
  Forall (λ en, 0 < en.2 ≤ d) (_to_visit it).

(** What every unfinished state of a traversal in [full] mode without
    ceiling satisfies: the discovered array is the metaprogram's. *)
Definition full_invariant mp it : Prop :=
  _mp it = Some mp ∧ _max_depth it = None ∧
  _discovered it = discovered mp ∧ _finished it = false.

End ForwardTraceNotions.

(** ** A concrete graph

    The diamond of the specification's scenario, root -> A -> B and
    root -> C -> B: vertices 0 (root), 1 (A), 2 (B), 3 (C); edges
    0 (root->A), 1 (root->C), 2 (A->B), 3 (C->B). Frames are names. *)
Definition diamond (mode_ : mode_t) (current : optional_edge_descriptor)
    (marks : list bool) : metaprogram string :=
  mk_metaprogram mode_ 0%nat "root" current
    (λ e, nth e [1; 3; 2; 2]%nat 0%nat)
    (λ e, nth e ["A"; "C"; "B"; "B"]%string ""%string)
    (λ v, length (nth v [[0; 1]; [2]; []; [3]]%nat []))
    (λ v, nth v [[0; 1]; [2]; []; [3]]%nat [])
    marks.

Definition unmarked : list bool := [false; false; false; false].

Definition diamond_rank (v : vertex_descriptor) : nat :=
  nth v [2; 1; 0; 1]%nat 0%nat.

(** ** metaprogram_builder

    The header declares the builder's state ([mp], [edge_stack],
    [element_vertex_map]) and the signatures of its handlers; the bodies of
    the handlers and the graph type [data::metaprogram] are modelled from
    the specification (sections 3, 4.1, 4.2 and 7). *)

Module Builder.

(** Modelled from the spec: [data::cpp_code], [data::type], [data::token]
    and [data::include_argument] are value types wrapping source text;
    their declarations are missing from the sources. *)
Definition cpp_code := string.
Definition type := string.
Definition token := string.
Definition include_argument := string.

(** Modelled from the spec: [data::file_location], a source position
    compared by value. *)
Record file_location := mk_file_location {
  name : string;
  row : Z;
  column : Z
}.

Global Instance file_location_eq_dec : EqDecision file_location.
Proof. solve_decision. Defined.

Global Program Instance file_location_countable : Countable file_location :=
  inj_countable' (λ l, (name l, row l, column l))
                 (λ t, mk_file_location t.1.1 t.1.2 t.2) _.
Next Obligation. by intros []. Qed.

(** Modelled from the spec: [data::metaprogram_node], the subject of a
    frame: a resolved type for template steps, source text or a token for
    the other events. *)
Inductive metaprogram_node :=
| node_type (t : type)
| node_code (c : cpp_code)
| node_token (t : token).

Global Instance metaprogram_node_eq_dec : EqDecision metaprogram_node.
Proof. solve_decision. Defined.

Global Program Instance metaprogram_node_countable
    : Countable metaprogram_node :=
  inj_countable'
    (λ n, match n with
          | node_type t => inl t
          | node_code c => inr (inl c)
          | node_token t => inr (inr t)
          end)
    (λ s, match s with
          | inl t => node_type t
          | inr (inl c) => node_code c
          | inr (inr t) => node_token t
          end) _.
Next Obligation. by intros []. Qed.

(** Modelled from the spec: [data::event_kind], the kind an edge is
    tagged with. *)
Inductive event_kind :=
| template_instantiation
| specialization
| memoization
| macro_expansion
| rescanning
| expanded_code
| generated_token
| skipped_token
| include
| macro_definition
| macro_deletion
| preprocessing_condition
| preprocessing_else
| preprocessing_endif
| error_directive
| line_directive.

(** Modelled from the spec: [data::type_or_code_or_error], the final
    result of an evaluation. *)
Inductive type_or_code_or_error :=
| result_type (t : type)
| result_code (c : cpp_code)
| result_error (message : string).

(** [element_key_t] and [element_vertex_map_t] of the header. *)
Abbreviation element_key_t := (metaprogram_node * file_location)%type.
Abbreviation element_vertex_map_t := (gmap element_key_t vertex_descriptor).

Section WithTimestamps.
(** Timestamps are [double]s that the builder only stores. *)
Context {double : Type}.

Record vertex_property := mk_vertex_property {
  vp_node : metaprogram_node;
  vp_source_location : file_location
}.

Record edge_property := mk_edge_property {
  ep_source : vertex_descriptor;
  ep_target : vertex_descriptor;
  ep_kind : event_kind;
  ep_point_of_event : file_location;
  ep_begin_timestamp : double;
  ep_enabled : bool;
  ep_condition_result : option bool
}.

(** Modelled from the spec: [data::metaprogram], an append-only arena of
    vertices and edges with a synthetic root at index 0, the mode and,
    once the evaluation has ended, its result. *)
Record metaprogram := mk_metaprogram {
  mode : mode_t;
  vertices : list vertex_property;
  edges : list edge_property;
  evaluation_result : option type_or_code_or_error
}.

Definition new_metaprogram (mode_ : mode_t) (root_name : cpp_code)
    (root_source_location : file_location) : metaprogram :=
  mk_metaprogram mode_
    [mk_vertex_property (node_code root_name) root_source_location]
    [] None.

Definition get_root_vertex (mp_ : metaprogram) : vertex_descriptor := 0%nat.

Definition mp_add_vertex (mp_ : metaprogram) (node : metaprogram_node)
    (source_location : file_location) : metaprogram * vertex_descriptor :=
  (mk_metaprogram (mode mp_)
     (vertices mp_ ++ [mk_vertex_property node source_location])
     (edges mp_) (evaluation_result mp_),
   length (vertices mp_)).

Definition mp_add_edge (mp_ : metaprogram) (ep : edge_property)
    : metaprogram * edge_descriptor :=
  (mk_metaprogram (mode mp_) (vertices mp_) (edges mp_ ++ [ep])
                  (evaluation_result mp_),
   length (edges mp_)).

Definition get_target (mp_ : metaprogram) (e : edge_descriptor)
    : vertex_descriptor :=
  from_option ep_target (get_root_vertex mp_) (edges mp_ !! e).

Definition set_condition_result (mp_ : metaprogram) (e : edge_descriptor)
    (result : bool) : metaprogram :=
  mk_metaprogram (mode mp_) (vertices mp_)
    (alter (λ ep, mk_edge_property (ep_source ep) (ep_target ep)
                    (ep_kind ep) (ep_point_of_event ep)
                    (ep_begin_timestamp ep) (ep_enabled ep) (Some result))
           e (edges mp_))
    (evaluation_result mp_).

Definition set_evaluation_result (mp_ : metaprogram)
    (result_ : type_or_code_or_error) : metaprogram :=
  mk_metaprogram (mode mp_) (vertices mp_) (edges mp_) (Some result_).

(** The private state of [metaprogram_builder], as the header has it. *)
Record metaprogram_builder := mk_builder {
  mp : metaprogram;
  edge_stack : list edge_descriptor;
  element_vertex_map : element_vertex_map_t
}.

(** Section 7 of the specification: the two structural faults. *)
Inductive fault := stack_underflow | evaluation_end_with_open_edges.

Inductive result (A : Type) :=
| Ok (a : A)
| Fault (f : fault).
Arguments Ok {A} a.
Arguments Fault {A} f.

Definition new_builder (mode_ : mode_t) (root_name : cpp_code)
    (root_source_location : file_location) : metaprogram_builder :=
  mk_builder (new_metaprogram mode_ root_name root_source_location) [] ∅.

(** Modelled from the spec: [add_vertex] looks the key up in the
    deduplication map, reuses the vertex it finds and otherwise creates
    one and records it. *)
Definition add_vertex (b : metaprogram_builder) (node : metaprogram_node)
    (source_location : file_location)
    : metaprogram_builder * vertex_descriptor :=
  match element_vertex_map b !! (node, source_location) with
  | Some v => (b, v)
  | None =>
      let '(mp', v) := mp_add_vertex (mp b) node source_location in
      (mk_builder mp' (edge_stack b)
         (<[(node, source_location) := v]> (element_vertex_map b)), v)
  end.

(** A vertex that is not deduplicated: always a new one. *)
Definition add_fresh_vertex (b : metaprogram_builder)
    (node : metaprogram_node) (source_location : file_location)
    : metaprogram_builder * vertex_descriptor :=
  let '(mp', v) := mp_add_vertex (mp b) node source_location in
  (mk_builder mp' (edge_stack b) (element_vertex_map b), v).

(** The vertex new edges leave from: the target of the innermost open
    edge, the root when no edge is open. *)
Definition top_vertex (b : metaprogram_builder) : vertex_descriptor :=
  match edge_stack b with
  | [] => get_root_vertex (mp b)
  | e :: _ => get_target (mp b) e
  end.

(** Adds the edge from the top vertex to [vertex]; [open] says whether
    the edge stays open (is pushed) until a matching end event. *)
Definition link (b : metaprogram_builder) (vertex : vertex_descriptor)
    (kind : event_kind) (point_of_event : file_location)
    (timestamp : double) (enabled opened : bool) : metaprogram_builder :=
  let '(mp', e) :=
    mp_add_edge (mp b)
      (mk_edge_property (top_vertex b) vertex kind point_of_event
                        timestamp enabled None) in
  mk_builder mp' (if opened then e :: edge_stack b else edge_stack b)
             (element_vertex_map b).

(** Frames of macro, include and preprocessing events: a fresh vertex,
    shown only in the detailed (full) view. *)
Definition record_frame (b : metaprogram_builder) (node : metaprogram_node)
    (source_location : file_location) (kind : event_kind)
    (point_of_event : file_location) (timestamp : double) (opened : bool)
    : metaprogram_builder :=
  let '(b', v) := add_fresh_vertex b node source_location in
  link b' v kind point_of_event timestamp
       (bool_decide (mode (mp b') = full)) opened.

(** Closes the innermost open edge; a fault when there is none. *)
Definition close_frame (b : metaprogram_builder)
    : result metaprogram_builder :=
  match edge_stack b with
  | [] => Fault stack_underflow
  | _ :: rest => Ok (mk_builder (mp b) rest (element_vertex_map b))
  end.

Definition no_location : file_location := mk_file_location "" 0 0.

Definition handle_template_begin (b : metaprogram_builder)
    (kind : event_kind) (type_ : type)
    (point_of_event source_location : file_location) (timestamp : double)
    : metaprogram_builder :=
  let '(b', vertex) := add_vertex b (node_type type_) source_location in
  link b' vertex kind point_of_event timestamp true true.

Definition handle_template_end (b : metaprogram_builder)
    (timestamp : double) : result metaprogram_builder :=
  close_frame b.

Definition macro_text (name_ : cpp_code) (args : option (list cpp_code))
    : cpp_code :=
  match args with
  | None => name_
  | Some l => name_ +:+ "(" +:+ String.concat "," l +:+ ")"
  end.

Definition handle_macro_expansion_begin (b : metaprogram_builder)
    (name_ : cpp_code) (args : option (list cpp_code))
    (point_of_event source_location : file_location) (timestamp : double)
    : metaprogram_builder :=
  record_frame b (node_code (macro_text name_ args)) source_location
               macro_expansion point_of_event timestamp true.

Definition handle_rescanning (b : metaprogram_builder) (code : cpp_code)
    (timestamp : double) : metaprogram_builder :=
  record_frame b (node_code code) no_location rescanning no_location
               timestamp false.

Definition handle_expanded_code (b : metaprogram_builder) (code : cpp_code)
    (point_of_event : file_location) (timestamp : double)
    : metaprogram_builder :=
  record_frame b (node_code code) no_location expanded_code point_of_event
               timestamp false.

Definition handle_macro_expansion_end (b : metaprogram_builder)
    (timestamp : double) : result metaprogram_builder :=
  close_frame b.

Definition handle_token_generation (b : metaprogram_builder)
    (token_ : token) (point_of_event source_location : file_location)
    (timestamp : double) : metaprogram_builder :=
  record_frame b (node_token token_) source_location generated_token
               point_of_event timestamp false.

Definition handle_token_skipping (b : metaprogram_builder) (token_ : token)
    (point_of_event : file_location) (timestamp : double)
    : metaprogram_builder :=
  record_frame b (node_token token_) no_location skipped_token
               point_of_event timestamp false.

Definition handle_include_begin (b : metaprogram_builder)
    (arg : include_argument) (point_of_event : file_location)
    (timestamp : double) : metaprogram_builder :=
  record_frame b (node_code arg) no_location include point_of_event
               timestamp true.

Definition handle_include_end (b : metaprogram_builder)
    (timestamp : double) : result metaprogram_builder :=
  close_frame b.

Definition handle_define (b : metaprogram_builder) (name_ : cpp_code)
    (args : option (list cpp_code)) (body : cpp_code)
    (point_of_event : file_location) (timestamp : double)
    : metaprogram_builder :=
  record_frame b (node_code (macro_text name_ args +:+ " " +:+ body))
               no_location macro_definition point_of_event timestamp false.

Definition handle_undefine (b : metaprogram_builder) (name_ : cpp_code)
    (point_of_event : file_location) (timestamp : double)
    : metaprogram_builder :=
  record_frame b (node_code name_) no_location macro_deletion
               point_of_event timestamp false.

Definition handle_preprocessing_condition_begin (b : metaprogram_builder)
    (expression : cpp_code) (point_of_event : file_location)
    (timestamp : double) : metaprogram_builder :=
  record_frame b (node_code expression) no_location
               preprocessing_condition point_of_event timestamp true.

(** Also stores the outcome of the condition on the frame it closes. *)
Definition handle_preprocessing_condition_end (b : metaprogram_builder)
    (result_ : bool) (timestamp : double) : result metaprogram_builder :=
  match edge_stack b with
  | [] => Fault stack_underflow
  | e :: _ =>
      close_frame (mk_builder (set_condition_result (mp b) e result_)
                              (edge_stack b) (element_vertex_map b))
  end.

Definition handle_preprocessing_else (b : metaprogram_builder)
    (point_of_event : file_location) (timestamp : double)
    : metaprogram_builder :=
  record_frame b (node_code "#else") no_location preprocessing_else
               point_of_event timestamp false.

Definition handle_preprocessing_endif (b : metaprogram_builder)
    (point_of_event : file_location) (timestamp : double)
    : metaprogram_builder :=
  record_frame b (node_code "#endif") no_location preprocessing_endif
               point_of_event timestamp false.

Definition handle_error_directive (b : metaprogram_builder)
    (message : string) (point_of_event : file_location)
    (timestamp : double) : metaprogram_builder :=
  record_frame b (node_code message) no_location error_directive
               point_of_event timestamp false.

Definition handle_line_directive (b : metaprogram_builder) (arg : cpp_code)
    (point_of_event source_location : file_location) (timestamp : double)
    : metaprogram_builder :=
  record_frame b (node_code arg) source_location line_directive
               point_of_event timestamp false.

(** Stores the result; a fault while an edge is still open. *)
Definition handle_evaluation_end (b : metaprogram_builder)
    (result_ : type_or_code_or_error) : result metaprogram_builder :=
  match edge_stack b with
  | [] => Ok (mk_builder (set_evaluation_result (mp b) result_) []
                         (element_vertex_map b))
  | _ :: _ => Fault evaluation_end_with_open_edges
  end.

Definition get_metaprogram (b : metaprogram_builder) : metaprogram := mp b.

(** *** Event streams

    One constructor per handler, so that a trace is a list of events fed to
    the builder in order. *)
Inductive event :=
| template_begin (kind : event_kind) (type_ : type)
    (point_of_event source_location : file_location) (timestamp : double)
| template_end (timestamp : double)
| macro_expansion_begin (name_ : cpp_code) (args : option (list cpp_code))
    (point_of_event source_location : file_location) (timestamp : double)
| rescanning_of (code : cpp_code) (timestamp : double)
| expanded_code_of (code : cpp_code) (point_of_event : file_location)
    (timestamp : double)
| macro_expansion_end (timestamp : double)
| token_generation (token_ : token)
    (point_of_event source_location : file_location) (timestamp : double)
| token_skipping (token_ : token) (point_of_event : file_location)
    (timestamp : double)
| include_begin (arg : include_argument) (point_of_event : file_location)
    (timestamp : double)
| include_end (timestamp : double)
| define (name_ : cpp_code) (args : option (list cpp_code)) (body : cpp_code)
    (point_of_event : file_location) (timestamp : double)
| undefine (name_ : cpp_code) (point_of_event : file_location)
    (timestamp : double)
| preprocessing_condition_begin (expression : cpp_code)
    (point_of_event : file_location) (timestamp : double)
| preprocessing_condition_end (result_ : bool) (timestamp : double)
| preprocessing_else_at (point_of_event : file_location) (timestamp : double)
| preprocessing_endif_at (point_of_event : file_location) (timestamp : double)
| error_directive_at (message : string) (point_of_event : file_location)
    (timestamp : double)
| line_directive_at (arg : cpp_code)
    (point_of_event source_location : file_location) (timestamp : double)
| evaluation_end (result_ : type_or_code_or_error).

Definition handle (b : metaprogram_builder) (ev : event)
    : result metaprogram_builder :=
  match ev with
  | template_begin k t p s ts => Ok (handle_template_begin b k t p s ts)
  | template_end ts => handle_template_end b ts
  | macro_expansion_begin n a p s ts =>
      Ok (handle_macro_expansion_begin b n a p s ts)
  | rescanning_of c ts => Ok (handle_rescanning b c ts)
  | expanded_code_of c p ts => Ok (handle_expanded_code b c p ts)
  | macro_expansion_end ts => handle_macro_expansion_end b ts
  | token_generation t p s ts => Ok (handle_token_generation b t p s ts)
  | token_skipping t p ts => Ok (handle_token_skipping b t p ts)
  | include_begin a p ts => Ok (handle_include_begin b a p ts)
  | include_end ts => handle_include_end b ts
  | define n a bd p ts => Ok (handle_define b n a bd p ts)
  | undefine n p ts => Ok (handle_undefine b n p ts)
  | preprocessing_condition_begin e p ts =>
      Ok (handle_preprocessing_condition_begin b e p ts)
  | preprocessing_condition_end r ts =>
      handle_preprocessing_condition_end b r ts
  | preprocessing_else_at p ts => Ok (handle_preprocessing_else b p ts)
  | preprocessing_endif_at p ts => Ok (handle_preprocessing_endif b p ts)
  | error_directive_at m p ts => Ok (handle_error_directive b m p ts)
  | line_directive_at a p s ts => Ok (handle_line_directive b a p s ts)
  | evaluation_end r => handle_evaluation_end b r
  end.

(** Feeds the events in order; the first fault ends the run and nothing of
    the graph under construction is returned. *)
Fixpoint run (evs : list event) (b : metaprogram_builder)
    : result metaprogram_builder :=
  match evs with
  | [] => Ok b
  | ev :: rest =>
      match handle b ev with
      | Ok b' => run rest b'
      | Fault f => Fault f
      end
  end.

Definition is_begin (ev : event) : bool :=
  match ev with
  | template_begin _ _ _ _ _ | macro_expansion_begin _ _ _ _ _
  | include_begin _ _ _ | preprocessing_condition_begin _ _ _ => true
  | _ => false
  end.

Definition is_end (ev : event) : bool :=
  match ev with
  | template_end _ | macro_expansion_end _ | include_end _
  | preprocessing_condition_end _ _ => true
  | _ => false
  end.

Definition is_leaf (ev : event) : bool :=
  match ev with
  | rescanning_of _ _ | expanded_code_of _ _ _ | token_generation _ _ _ _
  | token_skipping _ _ _ | define _ _ _ _ _ | undefine _ _ _
  | preprocessing_else_at _ _ | preprocessing_endif_at _ _
  | error_directive_at _ _ _ | line_directive_at _ _ _ _ => true
  | _ => false
  end.

(** Well-formed event sequences: the parenthesis language whose opening
    tokens are the begin events and whose closing tokens are the end
    events, with leaf events anywhere. *)
Inductive balanced : list event → Prop :=
| balanced_nil : balanced []
| balanced_leaf ev evs :
    is_leaf ev = true → balanced evs → balanced (ev :: evs)
| balanced_pair ev_b inner ev_e evs :
    is_begin ev_b = true → is_end ev_e = true →
    balanced inner → balanced evs →
    balanced (ev_b :: inner ++ ev_e :: evs).

(** *** Template-step begin events and the vertices they map to *)
Record template_begin_event := mk_template_begin_event {
  tb_kind : event_kind;
  tb_type : type;
  tb_point_of_event : file_location;
  tb_source_location : file_location;
  tb_timestamp : double
}.

(** The deduplication key the builder computes for a begin event. *)
Definition dedup_key (ev : template_begin_event) : element_key_t :=
  (node_type (tb_type ev), tb_source_location ev).

Definition handle_begin (b : metaprogram_builder) (ev : template_begin_event)
    : metaprogram_builder :=
  handle_template_begin b (tb_kind ev) (tb_type ev) (tb_point_of_event ev)
                        (tb_source_location ev) (tb_timestamp ev).

(** The vertex a begin event was mapped to: the target of the edge it
    opened, which is on top of the edge stack right after the event. *)
Definition mapped_vertex (b : metaprogram_builder) : vertex_descriptor :=
  top_vertex b.

(** The key a vertex carries. *)
Definition key_of_vertex (vp : vertex_property) : element_key_t :=
  (vp_node vp, vp_source_location vp).

(** What holds of the deduplication map after the keys [seen] were
    observed: the root is a vertex of its own kind, the map sends a key to
    the one vertex, other than the root, that carries it, its keys are
    template keys, and they are the keys observed. *)
Definition dedup_invariant (b : metaprogram_builder)
    (seen : list element_key_t) : Prop :=
  (∃ root_name root_source_location,
     vertices (mp b) !! 0%nat =
     Some (mk_vertex_property (node_code root_name) root_source_location)) ∧
  (∀ k v, element_vertex_map b !! k = Some v ↔
          v ≠ 0%nat ∧ key_of_vertex <$> vertices (mp b) !! v = Some k) ∧
  (∀ k v, element_vertex_map b !! k = Some v → ∃ t, k.1 = node_type t) ∧
  (∀ k, is_Some (element_vertex_map b !! k) ↔ k ∈ seen).

(** *** Deduplication along an event stream *)

(** The deduplication key of a template-step begin event; the other events
    have none. *)
Definition template_key (ev : event) : option element_key_t :=
  match ev with
  | template_begin _ type_ _ source_location _ =>
      Some (node_type type_, source_location)
  | _ => None
  end.

Definition is_template_event (ev : event) : bool :=
  match ev with
  | template_begin _ _ _ _ _ | template_end _ => true
  | _ => false
  end.

(** The vertex an event was mapped to, when it is a template-step begin;
    [b'] is the builder right after the event. *)
Definition mapped_to (b' : metaprogram_builder) (ev : event)
    : option vertex_descriptor :=
  match ev with
  | template_begin _ _ _ _ _ => Some (mapped_vertex b')
  | _ => None
  end.

(** [run], listing next to the final state what each event was mapped
    to. *)
Fixpoint run_mapped (evs : list event) (b : metaprogram_builder)
    : result (metaprogram_builder * list (option vertex_descriptor)) :=
  match evs with
  | [] => Ok (b, [])
  | ev :: rest =>
      match handle b ev with
      | Ok b' =>
          match run_mapped rest b' with
          | Ok r => Ok (r.1, mapped_to b' ev :: r.2)
          | Fault f => Fault f
          end
      | Fault f => Fault f
      end
  end.

(** What holds of the deduplication map along any event stream: the root
    exists, and a key is bound to a vertex other than the root that carries
    it. *)
Definition stream_invariant (b : metaprogram_builder) : Prop :=
  (0 < length (vertices (mp b)))%nat ∧
  ∀ k v, element_vertex_map b !! k = Some v →
         v ≠ 0%nat ∧ key_of_vertex <$> vertices (mp b) !! v = Some k.

End WithTimestamps.

Arguments vertex_property : clear implicits.
Arguments edge_property : clear implicits.
Arguments metaprogram : clear implicits.
Arguments metaprogram_builder : clear implicits.
Arguments event : clear implicits.
Arguments template_begin_event : clear implicits.
Arguments result : clear implicits.
Arguments Ok {A} a.
Arguments Fault {A} f.

End Builder.

(** ** A concrete trace *)

(** A trace with a template instantiated, closed and instantiated again,
    and the same macro defined twice in between. *)
Definition fib_trace : list (Builder.event Z) :=
  let here := Builder.mk_file_location "fib.hpp" 3 1 in
  [Builder.template_begin Builder.template_instantiation "fib<3>" here here 0;
   Builder.template_end 1;
   Builder.define "N" None "3" here 2;
   Builder.define "N" None "3" here 3;
   Builder.template_begin Builder.memoization "fib<3>" here here 4;
   Builder.template_end 5].

(** ** The shape of a traversal *)

Section ForwardTraceShape.
Context {frame : Type} `{!Inhabited frame}.
Implicit Types (mp : metaprogram frame) (it : forward_trace_iterator frame).

(** The vertex a path ends in. *)
Fixpoint path_target mp (v : vertex_descriptor) (p : list edge_descriptor)
    : vertex_descriptor :=
  match p with
  | [] => v
  | e :: p' => path_target mp (get_target mp e) p'
  end.

(** The call tree below an entry, unfolded [n] levels deep and listed node
    before children, last out-edge first. *)
Fixpoint unfolding mp (n : nat) (edge_ : optional_edge_descriptor)
    (depth_ : Z) : list (call_graph_node frame) :=
  mk_call_graph_node (frame_of mp edge_) depth_
                     (get_enabled_out_degree mp (vertex_of mp edge_))
  :: match n with
     | O => []
     | S n' =>
         e ← reverse (get_filtered_out_edges mp (vertex_of mp edge_));
         unfolding mp n' (Some e) (depth_ + 1)
     end.

(** The depths of the pending entries, read from the top of the stack, never
    increase and start at [k] or below. *)
Fixpoint descending (k : Z) (s : list (optional_edge_descriptor * Z))
    : Prop :=
  match s with
  | [] => True
  | en :: s' => en.2 ≤ k ∧ descending en.2 s'
  end.

(** The out-edges of the vertices not yet marked; [i] is the index of the
    first element of the array slice. *)
Fixpoint unmarked_out_degree mp (i : nat) (l : list bool) : nat :=
  match l with
  | [] => 0
  | b :: l' =>
      ((if b then 0 else length (get_filtered_out_edges mp i))
       + unmarked_out_degree mp (S i) l')%nat
  end.

(** What every state reached from the constructor satisfies: depths are
    positive below the start node, and the next node is at most one level
    deeper than the current one. *)
Definition shape_invariant it : Prop :=
  0 ≤ node_depth (_current it) ∧
  Forall (λ en, 0 < en.2) (_to_visit it) ∧
  descending (node_depth (_current it) + 1) (_to_visit it).

(** Every pending entry is an enabled out-edge at the end of a path from
    [start], one level below that path. *)
Definition on_paths mp (start : vertex_descriptor)
    (s : list (optional_edge_descriptor * Z)) : Prop :=
  Forall (λ en, ∃ e p,
            en.1 = Some e ∧ path mp start p ∧
            e ∈ get_filtered_out_edges mp (path_target mp start p) ∧
            en.2 = Z.of_nat (length p) + 1) s.

End ForwardTraceShape.

(** ** metadebugger_test_shell

    The shell the metadebugger tests run against: it records what is
    displayed and what is added to the history. *)

Module TestShell.

Record metadebugger_test_shell := mk_shell {
  history : list string;
  output : string
}.

Section WithColor.
(** The colour type of [optional_color] is declared elsewhere; the test
    shell ignores colours. *)
Context {color : Type}.

Definition run (sh : metadebugger_test_shell) : metadebugger_test_shell := sh.

Definition add_history (sh : metadebugger_test_shell) (str : string)
    : metadebugger_test_shell :=
  mk_shell (history sh ++ [str]) (output sh).

(** [display] is a const member that appends to the mutable [output]. *)
Definition display (sh : metadebugger_test_shell) (str : string)
    (c : option color) : metadebugger_test_shell :=
  mk_shell (history sh) (output sh +:+ str).

Definition width (sh : metadebugger_test_shell) : N := 80%N.

Definition get_output (sh : metadebugger_test_shell) : string := output sh.

Definition get_history (sh : metadebugger_test_shell) : list string :=
  history sh.

Definition clear_output (sh : metadebugger_test_shell)
    : metadebugger_test_shell :=
  mk_shell (history sh) "".

Definition clear_history (sh : metadebugger_test_shell)
    : metadebugger_test_shell :=
  mk_shell [] (output sh).

(** The calls a test makes on the shell. *)
Inductive call :=
| call_run
| call_add_history (str : string)
| call_display (str : string) (c : option color)
| call_clear_output
| call_clear_history.

Definition perform (sh : metadebugger_test_shell) (c : call)
    : metadebugger_test_shell :=
  match c with
  | call_run => run sh
  | call_add_history str => add_history sh str
  | call_display str col => display sh str col
  | call_clear_output => clear_output sh
  | call_clear_history => clear_history sh
  end.

Definition perform_all (sh : metadebugger_test_shell) (cs : list call)
    : metadebugger_test_shell :=
  fold_left perform cs sh.

(** The strings a sequence of calls displays, in order. *)
Definition displayed (cs : list call) : list string :=
  c ← cs; match c with call_display str _ => [str] | _ => [] end.

(** The strings a sequence of calls adds to the history, in order. *)
Definition added (cs : list call) : list string :=
  c ← cs; match c with call_add_history str => [str] | _ => [] end.

End WithColor.

Arguments call : clear implicits.

End TestShell.

(** ** The deployment tool

    The pure helpers of [tools/demo_server/bin/deploy]. A Python 2 [str] is
    a [string]; a raised [Exception] is the outcome [Raise] with its
    message. *)

Module Deploy.
Import Stdlib.Strings.Ascii.

Inductive outcome (A : Type) :=
| Return (a : A)
| Raise (message : string).
Arguments Return {A} a.
Arguments Raise {A} message.

(** [s.startswith(prefix_)] *)
Fixpoint startswith (prefix_ s : string) : bool :=
  match prefix_, s with
  | EmptyString, _ => true
  | String a p', String b s' => bool_decide (a = b) && startswith p' s'
  | String _ _, EmptyString => false
  end.

(** The slice [s[n:]]; empty when [n] is beyond the end. *)
Fixpoint slice_from (n : nat) (s : string) : string :=
  match n, s with
  | O, _ => s
  | S n', String _ s' => slice_from n' s'
  | S _, EmptyString => EmptyString
  end.

Definition remove_prefix (prefix_ string_ : string) : outcome string :=
  if startswith prefix_ string_ then
    Return (slice_from (String.length prefix_) string_)
  else
    Raise ("String " +:+ string_ +:+ " does not start with " +:+ prefix_).

(** [s.replace(old, new)] for one-character [old] and [new]. *)
Fixpoint replace_char (old new : ascii) (s : string) : string :=
  match s with
  | EmptyString => EmptyString
  | String c s' =>
      String (if bool_decide (c = old) then new else c)
             (replace_char old new s')
  end.

Definition escape_branch_name (name_ : string) : string :=
  replace_char "/"%char "_"%char name_.

(** [[item for sublist in list_of_lists for item in sublist]] *)
Definition flatten {A : Type} (list_of_lists : list (list A)) : list A :=
  sublist ← list_of_lists; item ← sublist; [item].

Fixpoint has_char (c : ascii) (s : string) : bool :=
  match s with
  | EmptyString => false
  | String a s' => bool_decide (a = c) || has_char c s'
  end.

(** [os.path.basename] of the Python library on POSIX: what follows the
    last slash, the whole path when it has none. *)
Fixpoint basename (path_ : string) : string :=
  match path_ with
  | EmptyString => EmptyString
  | String c s' =>
      if has_char "/"%char (String c s') then basename s' else String c s'
  end.

Definition version_of (name_ link : string) : outcome string :=
  let base := basename link in
  let prefix_ := name_ +:+ "_" in
  if startswith prefix_ base then
    Return (slice_from (String.length prefix_) base)
  else
    Raise ("Invalid link name " +:+ link +:+ " for " +:+ name_).

(** Python lists are mutable objects: a dictionary of versions binds a name
    to the identity of a list, and [lists] holds what each list contains.
    Two names, in one dictionary or in two, may be bound to one and the
    same list. Every list a dictionary binds is in [lists], so a list that
    is new is none of them. *)
Abbreviation list_id := nat.

(** What a dictionary holds for a name: the content of the list bound to
    it. *)
Definition versions_at (versions : gmap string list_id)
    (lists : gmap list_id (list string)) (name_ : string)
    : option (list string) :=
  versions !! name_ ≫= (lists !!.).

(** The body of the loop of [merge_external_versions_to], for the entry
    [item] of [versions2]: bind the name to a new empty list if it is
    missing from [versions1], then extend the list bound to it, in place,
    with the content of the list of [versions2]. *)
Definition merge_entry
    (state : gmap string list_id * gmap list_id (list string))
    (item : string * list_id)
    : gmap string list_id * gmap list_id (list string) :=
  let state1 :=
    match state.1 !! item.1 with
    | Some _ => state
    | None =>
        let l := fresh (dom state.2) in
        (<[item.1 := l]> state.1, <[l := []]> state.2)
    end in
  match state1.1 !! item.1 with
  | Some l =>
      (state1.1,
       <[l := default [] (state1.2 !! l) ++ default [] (state1.2 !! item.2)]>
         state1.2)
  | None => state1
  end.

(** The loop over [items], the entries of [versions2] in the order the
    dictionary iterates them. *)
Definition merge_items
    (state : gmap string list_id * gmap list_id (list string))
    (items : list (string * list_id))
    : gmap string list_id * gmap list_id (list string) :=
  fold_left merge_entry items state.

(** Returns [versions1], updated, and the lists as they are afterwards. *)
Definition merge_external_versions_to
    (versions1 versions2 : gmap string list_id)
    (lists : gmap list_id (list string))
    : gmap string list_id * gmap list_id (list string) :=
  merge_items (versions1, lists) (map_to_list versions2).

End Deploy.

(** * Properties of the forward trace iterator *)

(** The scenario of the specification, run on the code: in minimized mode
    the shared vertex B is yielded a second time, as a leaf. *)
Example diamond_minimized :
  (make_iterator (diamond minimized None unmarked) None ≫= collect 10)
  = Some [mk_call_graph_node "root"%string 0 2; mk_call_graph_node "C"%string 1 1;
          mk_call_graph_node "B"%string 2 0; mk_call_graph_node "A"%string 1 1;
          mk_call_graph_node "B"%string 2 0].
Proof. vm_compute. reflexivity. Qed.

Example diamond_full :
  (make_iterator (diamond full None unmarked) None ≫= collect 10)
  = Some [mk_call_graph_node "root"%string 0 2; mk_call_graph_node "C"%string 1 1;
          mk_call_graph_node "B"%string 2 0; mk_call_graph_node "A"%string 1 1;
          mk_call_graph_node "B"%string 2 0].
Proof. vm_compute. reflexivity. Qed.

Section ForwardTraceFacts.
Context {frame : Type} `{!Inhabited frame}.
Implicit Types (mp : metaprogram frame) (it : forward_trace_iterator frame).
Implicit Types (s : list (optional_edge_descriptor * Z)).

Lemma push_edges_pushed edges depth_ s :
  push_edges edges depth_ s = pushed edges depth_ ++ s.
Proof.
  unfold push_edges, pushed. revert s.
  induction edges as [|e edges IH]; intros s; simpl; [done|].
  rewrite IH, reverse_cons, <- app_assoc. done.
Qed.

Lemma depth_left_reached md k : depth_left md k = negb (depth_reached md k).
Proof.
  destruct md as [m|]; simpl; [|done].
  rewrite Z.gtb_ltb, Z.ltb_antisym. done.
Qed.

(** What one call of [visit] does to each member of the iterator. *)
Lemma visit_spec it edge_ depth_ it' :
  visit it edge_ depth_ = Some it' →
  ∃ mp d,
    _mp it = Some mp ∧
    _discovered it !! vertex_of mp edge_ = Some d ∧
    _mp it' = Some mp ∧
    _finished it' = _finished it ∧
    _max_depth it' = _max_depth it ∧
    _current it' =
      mk_call_graph_node (frame_of mp edge_) depth_
        (if d || depth_reached (_max_depth it) depth_ then 0%nat
         else get_enabled_out_degree mp (vertex_of mp edge_)) ∧
    _discovered it' =
      (if negb d && bool_decide (get_mode mp ≠ full)
       then <[vertex_of mp edge_ := true]> (_discovered it)
       else _discovered it) ∧
    _to_visit it' =
      (if negb d && depth_left (_max_depth it) depth_
       then pushed (get_filtered_out_edges mp (vertex_of mp edge_)) depth_
            ++ _to_visit it
       else _to_visit it).
Proof.
  unfold visit. intros Hv.
  destruct (_mp it) as [mp|] eqn:Hmp; simpl in Hv; [|done].
  destruct (_discovered it !! vertex_of mp edge_) as [d|] eqn:Hd;
    simpl in Hv; [|done].
  exists mp, d. split; [done|]. split; [done|].
  destruct d; simpl in *.
  - inversion Hv; subst; simpl. by rewrite Hmp.
  - rewrite push_edges_pushed in Hv.
    destruct (bool_decide (get_mode mp ≠ full)); simpl in *;
      destruct (depth_left (_max_depth it) depth_);
      inversion Hv; subst; simpl; by rewrite Hmp.
Qed.

(** [visit] is defined as soon as the vertex has an entry in the array. *)
Lemma visit_defined it edge_ depth_ mp :
  _mp it = Some mp →
  (vertex_of mp edge_ < length (_discovered it))%nat →
  is_Some (visit it edge_ depth_).
Proof.
  intros Hmp Hlt. unfold visit. rewrite Hmp. simpl.
  destruct (_discovered it !! _) as [d|] eqn:Hd; simpl.
  - destruct d; simpl; [by eexists|].
    destruct (bool_decide _); simpl; destruct (depth_left _ _); by eexists.
  - apply lookup_ge_None in Hd. lia.
Qed.

Lemma visit_length_discovered it edge_ depth_ it' :
  visit it edge_ depth_ = Some it' →
  length (_discovered it') = length (_discovered it).
Proof.
  intros (mp & d & _ & _ & _ & _ & _ & _ & Hd & _)%visit_spec.
  rewrite Hd. destruct (_ && _); [by rewrite length_insert|done].
Qed.

(** A mark, once set, stays. *)
Lemma visit_mark_stays it edge_ depth_ it' v :
  visit it edge_ depth_ = Some it' →
  _discovered it !! v = Some true → _discovered it' !! v = Some true.
Proof.
  intros (mp & d & _ & Hlk & _ & _ & _ & _ & Hd & _)%visit_spec Hv.
  rewrite Hd. destruct (_ && _); [|done].
  destruct (decide (vertex_of mp edge_ = v)) as [->|Hne].
  - apply list_lookup_insert_eq. by eapply lookup_lt_Some.
  - by rewrite list_lookup_insert_ne.
Qed.

Lemma increment_spec it it' :
  increment it = Some it' →
  (_to_visit it = [] ∧ it' = set_finished it true) ∨
  (∃ edge_ depth_ rest,
      _to_visit it = (edge_, depth_) :: rest ∧
      visit (set_to_visit it rest) edge_ depth_ = Some it').
Proof.
  unfold increment. destruct (_to_visit it) as [|[e k] rest]; intros Hi.
  - left. by inversion Hi.
  - right. by exists e, k, rest.
Qed.

Lemma increment_mp it it' :
  increment it = Some it' → _mp it' = _mp it.
Proof.
  intros [[_ ->]|(e & k & rest & _ & Hv)]%increment_spec; [done|].
  apply visit_spec in Hv as (mp & d & Hmp & _ & Hmp' & _). simpl in Hmp.
  by rewrite Hmp', Hmp.
Qed.

Lemma increment_max_depth it it' :
  increment it = Some it' → _max_depth it' = _max_depth it.
Proof.
  intros [[_ ->]|(e & k & rest & _ & Hv)]%increment_spec; [done|].
  by apply visit_spec in Hv as (mp & d & _ & _ & _ & _ & -> & _).
Qed.

Lemma increment_mark_stays it it' v :
  increment it = Some it' →
  _discovered it !! v = Some true → _discovered it' !! v = Some true.
Proof.
  intros [[_ ->]|(e & k & rest & _ & Hv)]%increment_spec; [done|].
  intros Hm. by apply (visit_mark_stays _ _ _ _ v Hv).
Qed.

Lemma advance_S_inv n it it' :
  advance (S n) it = Some it' →
  ∃ it1, increment it = Some it1 ∧ advance n it1 = Some it'.
Proof.
  simpl. destruct (increment it) as [it1|]; simpl; [|done]. eauto.
Qed.

Lemma advance_mp n it it' :
  advance n it = Some it' → _mp it' = _mp it.
Proof.
  revert it. induction n as [|n IH]; intros it.
  - by intros [= ->].
  - intros (it1 & Hi & Ha)%advance_S_inv.
    rewrite (IH _ Ha). by apply increment_mp.
Qed.

Lemma advance_max_depth n it it' :
  advance n it = Some it' → _max_depth it' = _max_depth it.
Proof.
  revert it. induction n as [|n IH]; intros it.
  - by intros [= ->].
  - intros (it1 & Hi & Ha)%advance_S_inv.
    rewrite (IH _ Ha). by apply increment_max_depth.
Qed.

Lemma advance_mark_stays n it it' v :
  advance n it = Some it' →
  _discovered it !! v = Some true → _discovered it' !! v = Some true.
Proof.
  revert it. induction n as [|n IH]; intros it.
  - by intros [= ->].
  - intros (it1 & Hi & Ha)%advance_S_inv Hv.
    eapply IH; [done|]. by eapply increment_mark_stays.
Qed.

(** *** Revisits in minimized mode *)

(** C2. When the mode is not [full], a visit marks its vertex in the
    iterator's own copy of the discovered array, so every later visit of the
    same vertex in this traversal, through whichever edge, yields a node
    whose child count is 0. *)
Theorem minimized_revisit_is_leaf
    mp it edge_ depth_ it1 n it2 edge' depth' rest it3 :
  _mp it = Some mp →
  get_mode mp ≠ full →
  visit it edge_ depth_ = Some it1 →
  advance n it1 = Some it2 →
  _to_visit it2 = (edge', depth') :: rest →
  vertex_of mp edge' = vertex_of mp edge_ →
  increment it2 = Some it3 →
  _discovered it1 !! vertex_of mp edge_ = Some true ∧
  node_frame (dereference it3) = frame_of mp edge' ∧
  node_depth (dereference it3) = depth' ∧
  node_number_of_children (dereference it3) = 0%nat.
Proof.
  intros Hmp Hmode Hv Hadv Hstack Hsame Hinc.
  assert (_discovered it1 !! vertex_of mp edge_ = Some true) as Hmark.
  { apply visit_spec in Hv as (mp' & d & Hmp' & Hlk & _ & _ & _ & _ & Hd & _).
    assert (mp' = mp) as -> by congruence.
    rewrite Hd. destruct d; simpl; [done|].
    rewrite bool_decide_eq_true_2 by done.
    apply list_lookup_insert_eq. by eapply lookup_lt_Some. }
  split; [done|].
  pose proof (advance_mark_stays _ _ _ _ Hadv Hmark) as Hmark2.
  pose proof (advance_mp _ _ _ Hadv) as Hmp2.
  apply increment_spec in Hinc as [[Hnil _]|(e & k & r & Hst & Hv3)];
    [congruence|].
  rewrite Hstack in Hst. inversion Hst; subst e k r.
  apply visit_spec in Hv3 as (mp3 & d & Hmp3 & Hlk & _ & _ & _ & Hcur & _).
  simpl in Hmp3, Hlk.
  apply visit_spec in Hv as (mp1 & _ & Hmp1 & _ & Hmp1' & _).
  assert (mp3 = mp) as -> by congruence.
  rewrite Hsame in Hlk. assert (d = true) as -> by congruence.
  unfold dereference. by rewrite Hcur.
Qed.

(** *** Depth ceiling *)

Lemma visit_ceiling d it edge_ depth_ it' :
  _max_depth it = Some d →
  0 ≤ depth_ → (0 ≤ d → depth_ ≤ d) →
  Forall (λ en, 0 < en.2 ≤ d) (_to_visit it) →
  visit it edge_ depth_ = Some it' →
  ceiling_invariant d it'.
Proof.
  intros Hmd Hk0 Hkd Hst
    (mp & b & _ & _ & _ & _ & Hmd' & Hcur & _ & Hto)%visit_spec.
  unfold ceiling_invariant. rewrite Hmd', Hcur, Hto, Hmd. simpl.
  split_and!; try done.
  - intros Hle. rewrite (proj2 (Z.leb_le d depth_) Hle).
    by rewrite orb_true_r.
  - destruct (negb b && (d >? depth_)) eqn:Hpush; [|done].
    apply andb_true_iff in Hpush as [_ Hgt]. apply Z.gtb_lt in Hgt.
    apply Forall_app. split; [|done].
    unfold pushed. apply Forall_reverse, Forall_fmap, Forall_forall.
    intros e _. simpl. lia.
Qed.

Lemma increment_ceiling d it it' :
  ceiling_invariant d it → increment it = Some it' → ceiling_invariant d it'.
Proof.
  intros (Hmd & H0 & Hd & Hc & Hst)
    [[_ ->]|(e & k & rest & Hs & Hv)]%increment_spec; [done|].
  rewrite Hs in Hst. apply Forall_cons in Hst as [Hk Hrest]. simpl in Hk.
  apply (visit_ceiling d (set_to_visit it rest) e k it'); simpl;
    [done|lia|lia|done|done].
Qed.

(** C4, as amended. For a ceiling [d ≥ 0] no node of the traversal is
    deeper than [d]; for any [d], every node at depth [d] or below it
    reports 0 children and nothing deeper than [d] is ever pending. (With a
    negative ceiling the start node, at depth 0, is still yielded.) *)
Theorem depth_ceiling mp d it0 n it :
  make_iterator mp (Some d) = Some it0 →
  advance n it0 = Some it →
  (0 ≤ d → node_depth (dereference it) ≤ d) ∧
  (d ≤ node_depth (dereference it) →
   node_number_of_children (dereference it) = 0%nat) ∧
  Forall (λ en, en.2 ≤ d) (_to_visit it).
Proof.
  intros Hmk Hadv.
  assert (ceiling_invariant d it0) as Hinv0.
  { unfold make_iterator in Hmk.
    match type of Hmk with visit ?i ?e ?k = _ =>
      apply (visit_ceiling d i e k it0); simpl; done end. }
  assert (ceiling_invariant d it) as (_ & _ & Hd & Hc & Hst).
  { clear Hmk. revert it0 Hinv0 Hadv.
    induction n as [|n IH]; intros it0 Hinv0.
    - by intros [= <-].
    - intros (it1 & Hi & Ha)%advance_S_inv.
      eapply IH; [|exact Ha]. by eapply increment_ceiling. }
  split_and!; [done..|].
  eapply Forall_impl; [exact Hst|]. simpl. lia.
Qed.

(** *** First node *)

(** C6, as amended. A newly constructed iterator is not finished and its
    first node, at depth 0, is the frame of the metaprogram's current edge;
    it is the root's frame when the metaprogram has no current edge. *)
Theorem first_node_is_current_position mp max_depth_ :
  (vertex_of mp (get_current_edge mp) < length (discovered mp))%nat →
  ∃ it, make_iterator mp max_depth_ = Some it ∧
        _finished it = false ∧
        node_frame (dereference it) = frame_of mp (get_current_edge mp) ∧
        node_depth (dereference it) = 0 ∧
        (get_current_edge mp = None →
         node_frame (dereference it) = get_root_frame mp).
Proof.
  intros Hlt. unfold make_iterator.
  match goal with |- context [visit ?i ?e ?k] =>
    destruct (visit_defined i e k mp eq_refl Hlt) as [it' Hv] end.
  exists it'. split; [done|].
  apply visit_spec in Hv as (mp' & d & [= <-] & _ & _ & Hf & _ & Hcur & _).
  unfold dereference. rewrite Hf, Hcur. simpl.
  split_and!; try done. by intros ->.
Qed.

(** *** Comparison and the end sentinel *)

(** C8, as amended. [operator==] compares the two finished flags and
    nothing else: two iterators are equal exactly when both are finished or
    both are unfinished, whatever their other members hold. *)
Theorem iterator_eq_compares_finished_flags it i_ :
  (iterator_eq it i_ = true ↔ _finished it = _finished i_) ∧
  (iterator_eq it i_ = true ↔
     (_finished it = true ∧ _finished i_ = true) ∨
     (_finished it = false ∧ _finished i_ = false)) ∧
  (∀ md md' (omp omp' : option (metaprogram frame)) ds ds' s s'
     (c c' : call_graph_node frame),
     iterator_eq (mk_iterator (_finished it) md omp ds s c)
                 (mk_iterator (_finished i_) md' omp' ds' s' c')
     = iterator_eq it i_).
Proof.
  unfold iterator_eq. split_and!.
  - apply bool_decide_eq_true.
  - rewrite bool_decide_eq_true.
    destruct (_finished it), (_finished i_); intuition congruence.
  - done.
Qed.

(** C10. The default-constructed iterator is finished, the range that starts
    at it is empty, advancing it changes nothing, and comparing it with any
    iterator gives that iterator's finished flag: it equals exactly the
    exhausted iterators. *)
Theorem default_iterator_is_end_sentinel :
  _finished (default_iterator (frame:=frame)) = true ∧
  (∀ fuel, collect fuel (default_iterator (frame:=frame)) = Some []) ∧
  increment (default_iterator (frame:=frame)) = Some default_iterator ∧
  (∀ it, iterator_eq default_iterator it = _finished it ∧
         iterator_eq it default_iterator = _finished it).
Proof.
  split_and!; try done.
  - by intros [|fuel].
  - intros it. unfold iterator_eq. simpl.
    by destruct (_finished it).
Qed.

(** *** Order of siblings *)

Lemma drain_S_pop n h it entry rest :
  _to_visit it = entry :: rest →
  (h < length (_to_visit it))%nat →
  drain (S n) h it =
    it' ← increment it; r ← drain n h it';
    Some ((entry, dereference it') :: r.1, r.2).
Proof.
  intros Hs Hlt. simpl. rewrite Hs in *.
  by rewrite decide_True.
Qed.

Lemma drain_stop n h it :
  (length (_to_visit it) ≤ h)%nat → drain n h it = Some ([], it).
Proof.
  intros Hle. destruct n as [|n]; simpl; [done|].
  destruct (_to_visit it) as [|entry rest] eqn:Hs; [done|].
  rewrite decide_False; [done|]. simpl in *. lia.
Qed.

(** The stack discipline behind the sibling order. Above the entries [old]
    that were pending before, the stack holds siblings [cs] of depth [K]
    below entries [deep] of greater depth. Draining down to [old] pops the
    siblings from the top, in stack order, and anything else popped on the
    way is deeper than [K]. *)
Lemma drain_siblings K fuel :
  ∀ it deep cs old tr itf,
    _to_visit it = deep ++ cs ++ old →
    Forall (λ en, K < en.2) deep →
    Forall (λ en, en.2 = K) cs →
    drain fuel (length old) it = Some (tr, itf) →
    ∃ cs1 cs2 deep',
      cs = cs1 ++ cs2 ∧
      filter (λ en, en.2 = K) tr.*1 = cs1 ∧
      _to_visit itf = deep' ++ cs2 ++ old ∧
      ((length (_to_visit itf) ≤ length old)%nat → cs2 = []) ∧
      (∀ mp, _mp it = Some mp →
         Forall (λ x, node_frame x.2 = frame_of mp x.1.1 ∧
                      node_depth x.2 = x.1.2) tr).
Proof.
  induction fuel as [|fuel IH]; intros it deep cs old tr itf Hs Hdeep Hcs Hdr.
  { simpl in Hdr. inversion Hdr; subst tr itf.
    exists [], cs, deep. split_and!; try done.
    rewrite Hs, !length_app. intros Hle.
    destruct cs; [done|]. simpl in Hle. lia. }
  destruct deep as [|[e k] deep].
  - destruct cs as [|[e k] cs].
    + simpl in Hs. rewrite drain_stop in Hdr by (by rewrite Hs).
      inversion Hdr; subst tr itf.
      exists [], [], []. by split_and!.
    + simpl in Hs.
      rewrite (drain_S_pop _ _ _ _ _ Hs) in Hdr
        by (rewrite Hs, length_cons, length_app; lia).
      destruct (increment it) as [it1|] eqn:Hinc; simpl in Hdr; [|done].
      destruct (drain fuel (length old) it1) as [[tr' itf']|] eqn:Hdr';
        simpl in Hdr; [|done].
      inversion Hdr; subst tr itf. clear Hdr.
      apply Forall_cons in Hcs as [Hk Hcs]. simpl in Hk. subst k.
      pose proof Hinc as Hinc'.
      apply increment_spec in Hinc as [[Hnil _]|(e' & k' & r & Hst & Hv)];
        [congruence|].
      rewrite Hs in Hst. inversion Hst; subst e' k' r. clear Hst.
      apply visit_spec in Hv
        as (mp & d & Hmp & _ & Hmp' & _ & _ & Hcur & _ & Hto).
      simpl in Hto, Hmp.
      destruct (IH it1
                  (if negb d && depth_left (_max_depth (set_to_visit it (cs ++ old))) K
                   then pushed (get_filtered_out_edges mp (vertex_of mp e)) K
                   else [])
                  cs old tr' itf')
        as (cs1 & cs2 & deep' & -> & Hf & Hfin & Hdone & Hnodes).
      { rewrite Hto. by destruct (_ && _). }
      { destruct (_ && _); [|done].
        unfold pushed. apply Forall_reverse, Forall_fmap, Forall_forall.
        intros ? _. simpl. lia. }
      { done. }
      { done. }
      exists ((e, K) :: cs1), cs2, deep'. split_and!; try done.
      * rewrite fmap_cons, filter_cons_True by done. by rewrite Hf.
      * intros mp0 Hmp0. assert (mp0 = mp) as -> by congruence.
        constructor; [|by apply Hnodes].
        simpl. unfold dereference. by rewrite Hcur.
  - simpl in Hs.
    rewrite (drain_S_pop _ _ _ _ _ Hs) in Hdr
      by (rewrite Hs, length_cons, !length_app; lia).
    destruct (increment it) as [it1|] eqn:Hinc; simpl in Hdr; [|done].
    destruct (drain fuel (length old) it1) as [[tr' itf']|] eqn:Hdr';
      simpl in Hdr; [|done].
    inversion Hdr; subst tr itf. clear Hdr.
    apply Forall_cons in Hdeep as [Hk Hdeep]. simpl in Hk.
    apply increment_spec in Hinc as [[Hnil _]|(e' & k' & r & Hst & Hv)];
      [congruence|].
    rewrite Hs in Hst. inversion Hst; subst e' k' r. clear Hst.
    apply visit_spec in Hv
      as (mp & d & Hmp & _ & Hmp' & _ & _ & Hcur & _ & Hto).
    simpl in Hto, Hmp.
    destruct (IH it1
                ((if negb d && depth_left (_max_depth (set_to_visit it (deep ++ cs ++ old))) k
                  then pushed (get_filtered_out_edges mp (vertex_of mp e)) k
                  else []) ++ deep)
                cs old tr' itf')
      as (cs1 & cs2 & deep' & -> & Hf & Hfin & Hdone & Hnodes).
    { rewrite Hto. destruct (_ && _); [|done]. by rewrite <- app_assoc. }
    { apply Forall_app. split; [|done].
      destruct (_ && _); [|done].
      unfold pushed. apply Forall_reverse, Forall_fmap, Forall_forall.
      intros ? _. simpl. lia. }
    { done. }
    { done. }
    exists cs1, cs2, deep'. split_and!; try done.
    * rewrite fmap_cons, filter_cons_False by (simpl; lia). done.
    * intros mp0 Hmp0. assert (mp0 = mp) as -> by congruence.
      constructor; [|by apply Hnodes].
      simpl. unfold dereference. by rewrite Hcur.
Qed.

(** C5. When [visit] expands a vertex at depth [depth_], it pushes the
    vertex's filtered out-edges in their enumeration order; from then until
    the pending stack is back to what it held before, the entries popped at
    depth [depth_ + 1] are these out-edges in reverse enumeration order (all
    of them once the stack is back, a prefix if the run is cut short), and
    each popped entry yields the node of its edge at its depth. *)
Theorem siblings_in_reverse_order mp it edge_ depth_ it' fuel tr itf :
  _mp it = Some mp →
  _discovered it !! vertex_of mp edge_ = Some false →
  depth_left (_max_depth it) depth_ = true →
  visit it edge_ depth_ = Some it' →
  drain fuel (length (_to_visit it)) it' = Some (tr, itf) →
  let children :=
    reverse ((λ e, (Some e, depth_ + 1))
               <$> get_filtered_out_edges mp (vertex_of mp edge_)) in
  _to_visit it' = children ++ _to_visit it ∧
  filter (λ en, en.2 = depth_ + 1) tr.*1 `prefix_of` children ∧
  ((length (_to_visit itf) ≤ length (_to_visit it))%nat →
   filter (λ en, en.2 = depth_ + 1) tr.*1 = children) ∧
  Forall (λ x, node_frame x.2 = frame_of mp x.1.1 ∧ node_depth x.2 = x.1.2) tr.
Proof.
  intros Hmp Hund Hleft Hv Hdr children.
  pose proof Hv as Hv'.
  apply visit_spec in Hv' as (mp' & d & Hmp1 & Hlk & Hmp' & _ & _ & _ & _ & Hto).
  assert (mp' = mp) as -> by congruence.
  assert (d = false) as -> by congruence.
  rewrite Hleft in Hto. simpl in Hto. fold children in Hto.
  destruct (drain_siblings (depth_ + 1) fuel it' [] children (_to_visit it)
              tr itf)
    as (cs1 & cs2 & deep' & Hsplit & Hf & Hfin & Hdone & Hnodes); try done.
  { unfold children. apply Forall_reverse, Forall_fmap, Forall_forall.
    by intros ? _. }
  split_and!; try done.
  - rewrite Hf, Hsplit. by exists cs2.
  - intros Hle. rewrite Hf, Hsplit, (Hdone Hle). by rewrite app_nil_r.
  - by apply Hnodes.
Qed.

(** *** Termination *)

Lemma visit_array_size mp it edge_ depth_ it' :
  _mp it = Some mp →
  length (_discovered it) = length (discovered mp) →
  visit it edge_ depth_ = Some it' →
  _mp it' = Some mp ∧ length (_discovered it') = length (discovered mp).
Proof.
  intros Hmp Hlen Hv. split.
  - apply visit_spec in Hv as (mp' & d & ? & _ & ? & _). congruence.
  - by rewrite (visit_length_discovered _ _ _ _ Hv).
Qed.

Lemma in_range_vertex_of mp edge_ :
  in_range mp → (vertex_of mp edge_ < length (discovered mp))%nat.
Proof. intros [Hroot Htgt]. destruct edge_; simpl; auto. Qed.

(** A traversal whose every step decreases a measure comes to its end. *)
Lemma finishes_by_measure (inv : forward_trace_iterator frame → Prop)
    (measure : forward_trace_iterator frame → nat) :
  (∀ it, inv it → _to_visit it ≠ [] →
         ∃ it', increment it = Some it' ∧ inv it' ∧
                (measure it' < measure it)%nat) →
  ∀ it, inv it →
        ∃ n it', advance n it = Some it' ∧ _finished it' = true.
Proof.
  intros Hstep it. remember (measure it) as m eqn:Hm. revert it Hm.
  induction m as [m IH] using lt_wf_ind. intros it -> Hinv.
  destruct (_to_visit it) as [|entry rest] eqn:Hs.
  - exists 1%nat, (set_finished it true). split; [|done].
    simpl. unfold increment. by rewrite Hs.
  - destruct (Hstep it Hinv) as (it1 & Hinc & Hinv1 & Hlt); [by rewrite Hs|].
    destruct (IH _ Hlt it1 eq_refl Hinv1) as (n & it' & Hadv & Hfin).
    exists (S n), it'. split; [|done]. simpl. by rewrite Hinc.
Qed.

Lemma subtree_bound_S mp j v :
  subtree_bound mp (S j) v =
  S (sum_list_with (λ e, subtree_bound mp j (get_target mp e))
                   (get_filtered_out_edges mp v)).
Proof. done. Qed.

Lemma subtree_bound_pos mp j v : (0 < subtree_bound mp j v)%nat.
Proof. destruct j; simpl; lia. Qed.

Lemma pending_bound_cons mp d edge_ depth_ s :
  pending_bound mp d ((edge_, depth_) :: s) =
  (subtree_bound mp (Z.to_nat (d - depth_)) (vertex_of mp edge_)
   + pending_bound mp d s)%nat.
Proof. done. Qed.

Lemma pending_bound_app mp d s1 s2 :
  pending_bound mp d (s1 ++ s2) =
  (pending_bound mp d s1 + pending_bound mp d s2)%nat.
Proof. apply sum_list_with_app. Qed.

Lemma pending_bound_pushed mp d edges depth_ :
  pending_bound mp d (pushed edges depth_) =
  sum_list_with (λ e, subtree_bound mp (Z.to_nat (d - (depth_ + 1)))
                                    (get_target mp e)) edges.
Proof.
  unfold pending_bound, pushed. rewrite sum_list_with_reverse.
  induction edges as [|e edges IH]; csimpl; [done|]. by rewrite IH.
Qed.

(** With a depth ceiling, each [operator++] uses up some of the bounded
    work that the pending entries stand for. *)
Lemma increment_under_ceiling mp d it :
  in_range mp →
  _mp it = Some mp → _max_depth it = Some d →
  length (_discovered it) = length (discovered mp) →
  _to_visit it ≠ [] →
  ∃ it', increment it = Some it' ∧
         (_mp it' = Some mp ∧ _max_depth it' = Some d ∧
          length (_discovered it') = length (discovered mp)) ∧
         (pending_bound mp d (_to_visit it')
          < pending_bound mp d (_to_visit it))%nat.
Proof.
  intros Hrange Hmp Hmd Hlen Hne.
  destruct (_to_visit it) as [|[e k] rest] eqn:Hs; [done|].
  destruct (visit_defined (set_to_visit it rest) e k mp) as [it' Hv];
    [done|simpl; rewrite Hlen; by apply in_range_vertex_of|].
  exists it'. split; [unfold increment; by rewrite Hs|].
  destruct (visit_array_size mp (set_to_visit it rest) _ _ _ Hmp Hlen Hv)
    as [Hmp' Hlen'].
  apply visit_spec in Hv as (mp' & b & Hmp1 & _ & _ & _ & Hmd' & _ & _ & Hto).
  simpl in Hmp1, Hmd', Hto. assert (mp' = mp) as -> by congruence.
  split; [split_and!; congruence|].
  rewrite Hto, pending_bound_cons, Hmd. simpl.
  pose proof (subtree_bound_pos mp (Z.to_nat (d - k)) (vertex_of mp e)).
  destruct (negb b && (d >? k)) eqn:Hpush; [|lia].
  apply andb_true_iff in Hpush as [_ Hgt]. apply Z.gtb_lt in Hgt.
  rewrite pending_bound_app, pending_bound_pushed.
  replace (Z.to_nat (d - k)) with (S (Z.to_nat (d - (k + 1)))) by lia.
  rewrite subtree_bound_S. lia.
Qed.

Lemma undiscovered_weight_mark mp l : ∀ i v,
  l !! v = Some false →
  (undiscovered_weight mp i (<[v := true]> l)
   + S (length (get_filtered_out_edges mp (i + v)))
   = undiscovered_weight mp i l)%nat.
Proof.
  induction l as [|b l IH]; intros i v Hv; [done|].
  destruct v as [|v]; simpl in *.
  - inversion Hv; subst b. rewrite Nat.add_0_r. lia.
  - specialize (IH (S i) v Hv).
    replace (i + S v)%nat with (S i + v)%nat by lia. lia.
Qed.

(** Outside [full] mode, each [operator++] either only pops, or marks a
    fresh vertex and pushes no more than its out-edges. *)
Lemma increment_minimized mp it :
  in_range mp → get_mode mp ≠ full →
  _mp it = Some mp →
  length (_discovered it) = length (discovered mp) →
  _to_visit it ≠ [] →
  ∃ it', increment it = Some it' ∧
         (_mp it' = Some mp ∧
          length (_discovered it') = length (discovered mp)) ∧
         (length (_to_visit it') + undiscovered_weight mp 0 (_discovered it')
          < length (_to_visit it) + undiscovered_weight mp 0 (_discovered it))%nat.
Proof.
  intros Hrange Hmode Hmp Hlen Hne.
  destruct (_to_visit it) as [|[e k] rest] eqn:Hs; [done|].
  destruct (visit_defined (set_to_visit it rest) e k mp) as [it' Hv];
    [done|simpl; rewrite Hlen; by apply in_range_vertex_of|].
  exists it'. split; [unfold increment; by rewrite Hs|].
  split; [by apply (visit_array_size mp (set_to_visit it rest) _ _ _ Hmp Hlen Hv)|].
  apply visit_spec in Hv as (mp' & b & Hmp1 & Hlk & _ & _ & _ & _ & Hd & Hto).
  simpl in Hmp1, Hlk, Hd, Hto. assert (mp' = mp) as -> by congruence.
  rewrite Hd, Hto. rewrite bool_decide_eq_true_2 by done.
  destruct b; simpl; [lia|].
  pose proof (undiscovered_weight_mark mp _ 0 _ Hlk) as Hw. simpl in Hw.
  destruct (depth_left _ _).
  - rewrite length_app. unfold pushed.
    rewrite length_reverse, length_fmap. lia.
  - lia.
Qed.

Lemma collect_of_advance n : ∀ it it',
  advance n it = Some it' → _finished it' = true →
  ∃ nodes, collect n it = Some nodes ∧ (length nodes ≤ n)%nat.
Proof.
  induction n as [|n IH]; intros it it' Hadv Hfin.
  - inversion Hadv; subst it'. exists []. simpl.
    unfold iterator_eq. simpl. rewrite Hfin. done.
  - apply advance_S_inv in Hadv as (it1 & Hinc & Hadv).
    destruct (IH _ _ Hadv Hfin) as (nodes & Hc & Hl).
    simpl. unfold iterator_eq at 1. simpl.
    destruct (_finished it).
    + exists []. split; [done|]. simpl. lia.
    + rewrite bool_decide_eq_false_2 by done.
      rewrite Hinc. simpl. rewrite Hc. simpl.
      eexists. split; [done|]. simpl. lia.
Qed.

(** C9. Over a graph whose vertices all have an entry in the discovered
    array (so there are finitely many), the constructor succeeds and the
    iteration reaches the finished state after finitely many [operator++]
    calls whenever a maximum depth is given or the mode is not [full]; the
    range loop then returns the list of nodes. *)
Theorem iteration_terminates mp max_depth_ :
  in_range mp →
  is_Some max_depth_ ∨ get_mode mp ≠ full →
  ∃ it0 n it nodes,
    make_iterator mp max_depth_ = Some it0 ∧
    advance n it0 = Some it ∧
    _finished it = true ∧
    collect n it0 = Some nodes.
Proof.
  intros Hrange Hcase.
  pose (init := mk_iterator false max_depth_ (Some mp) (discovered mp) []
                            (mk_call_graph_node inhabitant 0 0%nat)).
  destruct (visit_defined init (get_current_edge mp) 0 mp) as [it0 Hv];
    [done|by apply in_range_vertex_of|].
  destruct (visit_array_size mp init _ _ _ eq_refl eq_refl Hv) as [Hmp0 Hlen0].
  assert (_max_depth it0 = max_depth_) as Hmd0.
  { by apply visit_spec in Hv as (? & ? & _ & _ & _ & _ & -> & _). }
  assert (∃ n it, advance n it0 = Some it ∧ _finished it = true)
    as (n & it & Hadv & Hfin).
  { destruct max_depth_ as [d|].
    - apply (finishes_by_measure
               (λ it, _mp it = Some mp ∧ _max_depth it = Some d ∧
                      length (_discovered it) = length (discovered mp))
               (λ it, pending_bound mp d (_to_visit it))); [|done].
      intros it (Hmp & Hmd & Hlen) Hne.
      by apply increment_under_ceiling.
    - destruct Hcase as [[? [=]]|Hmode].
      apply (finishes_by_measure
               (λ it, _mp it = Some mp ∧
                      length (_discovered it) = length (discovered mp))
               (λ it, (length (_to_visit it)
                       + undiscovered_weight mp 0 (_discovered it))%nat));
        [|done].
      intros it (Hmp & Hlen) Hne.
      by apply increment_minimized. }
  destruct (collect_of_advance _ _ _ Hadv Hfin) as (nodes & Hc & _).
  by exists it0, n, it, nodes.
Qed.

(** *** Full mode: one node per path *)

Lemma path_of_paths_from mp n : ∀ v p, p ∈ paths_from mp n v → path mp v p.
Proof.
  induction n as [|n IH]; intros v p; simpl.
  - intros ->%list_elem_of_singleton. constructor.
  - rewrite elem_of_cons, list_elem_of_bind.
    intros [->|(e & Hp & He)]; [constructor|].
    apply list_elem_of_fmap in Hp as (q & -> & Hq).
    constructor; [done|]. by apply IH.
Qed.

Lemma paths_from_complete mp rank :
  acyclic mp rank →
  ∀ v p, path mp v p → ∀ n, (rank v ≤ n)%nat → p ∈ paths_from mp n v.
Proof.
  intros Hacyc v p Hp. induction Hp as [v|v e p He Hp IH]; intros n Hn.
  - destruct n; simpl; apply list_elem_of_here.
  - pose proof (Hacyc v e He) as Hlt.
    destruct n as [|n]; [lia|]. simpl.
    apply list_elem_of_further, list_elem_of_bind. exists e. split; [|done].
    apply list_elem_of_fmap. exists p. split; [done|]. apply IH. lia.
Qed.

Lemma paths_from_NoDup mp n :
  (∀ v, NoDup (get_filtered_out_edges mp v)) →
  ∀ v, NoDup (paths_from mp n v).
Proof.
  intros Hnd. induction n as [|n IH]; intros v; simpl.
  - apply NoDup_singleton.
  - apply NoDup_cons. split.
    + rewrite list_elem_of_bind. intros (e & Hp & _).
      by apply list_elem_of_fmap in Hp as (q & ? & _).
    + apply NoDup_bind; [| |done].
      * intros e1 e2 p _ _ (q1 & -> & _)%list_elem_of_fmap
          (q2 & [= -> _] & _)%list_elem_of_fmap. done.
      * intros e _. apply NoDup_fmap_2; [|done]. by intros ?? [=].
Qed.

Lemma paths_from_length mp n :
  ∀ v, length (paths_from mp n v) = subtree_bound mp n v.
Proof.
  induction n as [|n IH]; intros v; simpl; [done|]. f_equal.
  induction (get_filtered_out_edges mp v) as [|e es IHes]; csimpl; [done|].
  by rewrite length_app, length_fmap, IH, IHes.
Qed.

Lemma sum_list_with_ext_in {A} (f g : A → nat) (l : list A) :
  (∀ x, x ∈ l → f x = g x) → sum_list_with f l = sum_list_with g l.
Proof.
  induction l as [|x l IH]; intros Hfg; simpl; [done|].
  rewrite (Hfg x) by apply list_elem_of_here.
  rewrite IH; [done|]. intros y Hy. apply Hfg. by apply list_elem_of_further.
Qed.

(** Below its rank a vertex has no further levels to unfold. *)
Lemma subtree_bound_stable mp rank :
  acyclic mp rank →
  ∀ n m v, (rank v ≤ n)%nat → (rank v ≤ m)%nat →
           subtree_bound mp n v = subtree_bound mp m v.
Proof.
  intros Hacyc.
  assert (∀ v, rank v = 0%nat → ∀ j, subtree_bound mp j v = 1%nat) as Hleaf.
  { intros v Hv j. destruct j; simpl; [done|].
    destruct (get_filtered_out_edges mp v) as [|e es] eqn:He; [done|].
    pose proof (Hacyc v e) as Hlt. rewrite He in Hlt.
    specialize (Hlt (list_elem_of_here _ _)). lia. }
  induction n as [|n IH]; intros m v Hn Hm.
  - rewrite !Hleaf by lia. done.
  - destruct m as [|m]; [rewrite !Hleaf by lia; done|].
    rewrite !subtree_bound_S. f_equal.
    apply sum_list_with_ext_in. intros e He.
    pose proof (Hacyc v e He). apply IH; lia.
Qed.

Lemma subtree_bound_rank mp rank v :
  acyclic mp rank →
  subtree_bound mp (rank v) v =
  S (sum_list_with
       (λ e, subtree_bound mp (rank (get_target mp e)) (get_target mp e))
       (get_filtered_out_edges mp v)).
Proof.
  intros Hacyc.
  rewrite (subtree_bound_stable mp rank Hacyc (rank v) (S (rank v)))
    by lia.
  rewrite subtree_bound_S. f_equal.
  apply sum_list_with_ext_in. intros e He.
  pose proof (Hacyc v e He).
  apply (subtree_bound_stable mp rank Hacyc); lia.
Qed.

Lemma rank_bound_pushed mp (rank : vertex_descriptor → nat) edges depth_ :
  sum_list_with
    (λ en : optional_edge_descriptor * Z,
       subtree_bound mp (rank (vertex_of mp en.1)) (vertex_of mp en.1))
    (pushed edges depth_)
  = sum_list_with
      (λ e, subtree_bound mp (rank (get_target mp e)) (get_target mp e))
      edges.
Proof.
  unfold pushed. rewrite sum_list_with_reverse.
  induction edges as [|e es IHes]; csimpl; [done|]. by rewrite IHes.
Qed.

(** In [full] mode without ceiling, over unmarked vertices, [visit] pushes
    every out-edge and leaves the discovered array alone. *)
Lemma visit_full mp it edge_ depth_ :
  get_mode mp = full → in_range mp → nothing_discovered mp →
  full_invariant mp it →
  ∃ it', visit it edge_ depth_ = Some it' ∧
         full_invariant mp it' ∧
         _to_visit it' =
           pushed (get_filtered_out_edges mp (vertex_of mp edge_)) depth_
           ++ _to_visit it.
Proof.
  intros Hmode Hrange Hnone (Hmp & Hmd & Hdisc & Hfin).
  destruct (visit_defined it edge_ depth_ mp) as [it' Hv];
    [done|rewrite Hdisc; by apply in_range_vertex_of|].
  exists it'. split; [done|].
  apply visit_spec in Hv
    as (mp' & b & Hmp1 & Hlk & Hmp' & Hfin' & Hmd' & _ & Hd & Hto).
  assert (mp' = mp) as -> by congruence.
  rewrite Hdisc in Hlk. apply Hnone in Hlk as ->.
  rewrite Hmd in Hto. simpl in Hto.
  rewrite Hmode in Hd. simpl in Hd.
  unfold full_invariant. split_and!; congruence.
Qed.

Lemma collect_step n it it' nodes :
  _finished it = false →
  increment it = Some it' →
  collect n it' = Some nodes →
  collect (S n) it = Some (dereference it :: nodes).
Proof.
  intros Hfin Hinc Hc. simpl. unfold iterator_eq. simpl.
  rewrite Hfin, Hinc. simpl. by rewrite Hc.
Qed.

(** The nodes still to come: one per path from the target of each pending
    entry. *)
Lemma collect_full mp rank :
  get_mode mp = full → in_range mp → nothing_discovered mp →
  acyclic mp rank →
  ∀ m it,
    full_invariant mp it →
    sum_list_with
      (λ en, subtree_bound mp (rank (vertex_of mp en.1)) (vertex_of mp en.1))
      (_to_visit it) = m →
    ∃ nodes, collect (S m) it = Some nodes ∧ length nodes = S m.
Proof.
  intros Hmode Hrange Hnone Hacyc.
  induction m as [|m IH]; intros it Hinv Hm.
  - destruct (_to_visit it) as [|[e k] rest] eqn:Hs.
    + exists [dereference it]. split; [|done].
      destruct Hinv as (_ & _ & _ & Hfin).
      simpl. unfold iterator_eq, increment. simpl. rewrite Hfin, Hs. simpl.
      unfold iterator_eq. simpl. done.
    + simpl in Hm.
      pose proof (subtree_bound_pos mp (rank (vertex_of mp e)) (vertex_of mp e)).
      lia.
  - destruct (_to_visit it) as [|[e k] rest] eqn:Hs; [done|].
    simpl in Hm.
    destruct (visit_full mp (set_to_visit it rest) e k)
      as (it' & Hv & Hinv' & Hto); try done.
    simpl in Hto.
    destruct (IH it' Hinv') as (nodes & Hc & Hlen).
    { rewrite Hto, sum_list_with_app, rank_bound_pushed.
      rewrite (subtree_bound_rank mp rank _ Hacyc) in Hm. lia. }
    exists (dereference it :: nodes). split; [|simpl; lia].
    destruct Hinv as (_ & _ & _ & Hfin).
    apply (collect_step _ _ it'); [done| |done].
    unfold increment. by rewrite Hs.
Qed.

(** In [full] mode the discovered array is never written. *)
Lemma advance_full_discovered mp n : ∀ it it',
  get_mode mp = full → _mp it = Some mp →
  advance n it = Some it' → _discovered it' = _discovered it.
Proof.
  induction n as [|n IH]; intros it it' Hmode Hmp.
  - by intros [= <-].
  - intros (it1 & Hi & Ha)%advance_S_inv.
    pose proof (increment_mp _ _ Hi) as Hmp1.
    rewrite (IH it1 it') by congruence.
    apply increment_spec in Hi as [[_ ->]|(e & k & rest & Hs & Hv1)]; [done|].
    apply visit_spec in Hv1 as (mp' & b & Hmp' & _ & _ & _ & _ & _ & Hd & _).
    simpl in Hmp', Hd. assert (mp' = mp) as -> by congruence.
    rewrite Hmode in Hd. simpl in Hd. by rewrite andb_false_r in Hd.
Qed.

(** C3, as amended. In [full] mode without depth ceiling, over an acyclic
    graph none of whose vertices is marked in the metaprogram's discovered
    array, discovery is never recorded and the traversal yields exactly one
    node per distinct path of enabled out-edges that starts at the vertex
    of the current edge (the root when there is no current edge). *)
Theorem full_mode_counts_paths mp rank :
  get_mode mp = full →
  in_range mp →
  nothing_discovered mp →
  acyclic mp rank →
  (∀ v, NoDup (get_filtered_out_edges mp v)) →
  ∃ it0 fuel nodes all_paths,
    make_iterator mp None = Some it0 ∧
    collect fuel it0 = Some nodes ∧
    NoDup all_paths ∧
    (∀ p, p ∈ all_paths ↔ path mp (vertex_of mp (get_current_edge mp)) p) ∧
    length nodes = length all_paths ∧
    (∀ n it, advance n it0 = Some it → _discovered it = discovered mp).
Proof.
  intros Hmode Hrange Hnone Hacyc Hnd.
  set (start := vertex_of mp (get_current_edge mp)).
  pose (init := mk_iterator false None (Some mp) (discovered mp) []
                            (mk_call_graph_node inhabitant 0 0%nat)).
  destruct (visit_full mp init (get_current_edge mp) 0)
    as (it0 & Hv & Hinv0 & Hto); try done.
  simpl in Hto. rewrite app_nil_r in Hto. fold start in Hto.
  destruct (collect_full mp rank Hmode Hrange Hnone Hacyc
              (pred (subtree_bound mp (rank start) start)) it0 Hinv0)
    as (nodes & Hc & Hlen).
  { rewrite Hto, rank_bound_pushed.
    by rewrite (subtree_bound_rank mp rank start Hacyc). }
  exists it0, (S (pred (subtree_bound mp (rank start) start))), nodes,
         (paths_from mp (rank start) start).
  split_and!; try done.
  - by apply paths_from_NoDup.
  - intros p. split.
    + apply path_of_paths_from.
    + intros Hp. by apply (paths_from_complete mp rank Hacyc _ _ Hp).
  - rewrite Hlen, paths_from_length.
    pose proof (subtree_bound_pos mp (rank start) start). lia.
  - intros n it Hadv. destruct Hinv0 as (Hmp0 & _ & <- & _).
    by apply (advance_full_discovered mp n).
Qed.

End ForwardTraceFacts.

(** ** The properties on the diamond *)

Lemma diamond_in_range mode_ current : in_range (diamond mode_ current unmarked).
Proof.
  split; simpl; [lia|]. intros e.
  do 4 (destruct e as [|e]; simpl; [lia|]). destruct e; simpl; lia.
Qed.

Lemma diamond_acyclic mode_ current marks :
  acyclic (diamond mode_ current marks) diamond_rank.
Proof.
  intros v e. simpl.
  do 4 (destruct v as [|v]; simpl;
        [intros He;
         repeat (apply elem_of_cons in He as [->|He];
                 [unfold diamond_rank; simpl; lia|]);
         by apply elem_of_nil in He|]).
  destruct v; simpl; by intros ?%elem_of_nil.
Qed.

Lemma diamond_edges_NoDup mode_ current marks v :
  NoDup (get_filtered_out_edges (diamond mode_ current marks) v).
Proof.
  simpl.
  do 4 (destruct v as [|v]; simpl;
        [apply (bool_decide_unpack _); vm_compute; exact I|]).
  destruct v; simpl; constructor.
Qed.

(** Evaluates an [option]-valued term and names the value it holds. *)
Ltac pose_value x t :=
  let v := eval vm_compute in t in
  lazymatch v with
  | Some ?a => pose (x := a)
  end.

Ltac by_evaluation := vm_compute; reflexivity.

Lemma minimized_revisit_is_leaf_witness :
  let mp := diamond minimized None unmarked in
  let it := mk_iterator false None (Some mp) [true; false; false; true]
                        [(Some 0%nat, 1)]
                        (mk_call_graph_node "C"%string 1 1) in
  ∃ it1 it2 it3,
    visit it (Some 3%nat) 2 = Some it1 ∧
    advance 1 it1 = Some it2 ∧
    _to_visit it2 = [(Some 2%nat, 2)] ∧
    increment it2 = Some it3 ∧
    node_number_of_children (dereference it3) = 0%nat.
Proof.
  intros mp it.
  pose_value it1 (visit it (Some 3%nat) 2).
  pose_value it2 (advance 1 it1).
  pose_value it3 (increment it2).
  assert (visit it (Some 3%nat) 2 = Some it1) as H1 by by_evaluation.
  assert (advance 1 it1 = Some it2) as H2 by by_evaluation.
  assert (_to_visit it2 = [(Some 2%nat, 2)]) as H3 by by_evaluation.
  assert (increment it2 = Some it3) as H4 by by_evaluation.
  exists it1, it2, it3. do 4 (split; [assumption|]).
  refine (proj2 (proj2 (proj2
    (minimized_revisit_is_leaf mp it (Some 3%nat) 2 it1 1 it2 (Some 2%nat) 2 []
       it3 eq_refl _ H1 H2 H3 eq_refl H4)))).
  discriminate.
Defined.

Lemma depth_ceiling_witness :
  ∃ it0 it,
    make_iterator (diamond full None unmarked) (Some 1) = Some it0 ∧
    advance 2 it0 = Some it ∧
    (0 ≤ 1 → node_depth (dereference it) ≤ 1) ∧
    (1 ≤ node_depth (dereference it) →
     node_number_of_children (dereference it) = 0%nat) ∧
    Forall (λ en, en.2 ≤ 1) (_to_visit it).
Proof.
  pose_value it0 (make_iterator (diamond full None unmarked) (Some 1)).
  pose_value it (advance 2 it0).
  assert (make_iterator (diamond full None unmarked) (Some 1) = Some it0)
    as H1 by by_evaluation.
  assert (advance 2 it0 = Some it) as H2 by by_evaluation.
  exists it0, it. split; [exact H1|]. split; [exact H2|].
  exact (depth_ceiling (diamond full None unmarked) 1 it0 2 it H1 H2).
Defined.

(** C4, counterexample: with the ceiling -1 the start node is yielded at
    depth 0, above the ceiling. *)
Lemma depth_ceiling_counterexample :
  ∃ it0,
    make_iterator (diamond full None unmarked) (Some (-1)) = Some it0 ∧
    ¬ (node_depth (dereference it0) ≤ -1).
Proof.
  pose_value it0 (make_iterator (diamond full None unmarked) (Some (-1))).
  exists it0. split; [by_evaluation|]. vm_compute. intros H. by apply H.
Qed.

Lemma siblings_in_reverse_order_witness :
  let mp := diamond full None unmarked in
  let it := mk_iterator false None (Some mp) unmarked []
                        (mk_call_graph_node ""%string 0 0) in
  ∃ it' tr itf,
    visit it None 0 = Some it' ∧
    drain 10 0 it' = Some (tr, itf) ∧
    filter (λ en, en.2 = 0 + 1) tr.*1 = [(Some 1%nat, 1); (Some 0%nat, 1)].
Proof.
  intros mp it.
  pose_value it' (visit it None 0).
  pose_value r (drain 10 0 it').
  assert (visit it None 0 = Some it') as H1 by by_evaluation.
  assert (drain 10 0 it' = Some (r.1, r.2)) as H2 by by_evaluation.
  exists it', r.1, r.2. split; [exact H1|]. split; [exact H2|].
  refine (proj1 (proj2 (proj2
    (siblings_in_reverse_order mp it None 0 it' 10 r.1 r.2
       eq_refl eq_refl eq_refl H1 H2))) _).
  vm_compute. constructor.
Defined.

Lemma first_node_is_current_position_witness :
  ∃ it, make_iterator (diamond minimized None unmarked) None = Some it ∧
        _finished it = false ∧
        node_frame (dereference it) = "root"%string ∧
        node_depth (dereference it) = 0 ∧
        (@None edge_descriptor = None →
         node_frame (dereference it) = "root"%string).
Proof.
  refine (first_node_is_current_position
            (diamond minimized None unmarked) None _).
  simpl. lia.
Defined.

(** C6, counterexample: for a metaprogram whose current edge is the edge
    root -> A, the first node is A's frame, not the root's. *)
Lemma first_node_counterexample :
  ∃ it, make_iterator (diamond minimized (Some 0%nat) unmarked) None = Some it ∧
        node_frame (dereference it) = "A"%string ∧
        node_frame (dereference it)
        ≠ get_root_frame (diamond minimized (Some 0%nat) unmarked).
Proof.
  pose_value it (make_iterator (diamond minimized (Some 0%nat) unmarked) None).
  exists it. split; [by_evaluation|]. split; [by_evaluation|].
  vm_compute. discriminate.
Qed.

(** C8, counterexample: a new iterator and its successor are both
    unfinished, and they compare equal. *)
Lemma iterator_eq_counterexample :
  ∃ it1 it2,
    make_iterator (diamond minimized None unmarked) None = Some it1 ∧
    increment it1 = Some it2 ∧
    iterator_eq it1 it2 = true ∧
    ¬ (_finished it1 = true ∧ _finished it2 = true).
Proof.
  pose_value it1 (make_iterator (diamond minimized None unmarked) None).
  pose_value it2 (increment it1).
  exists it1, it2. split; [by_evaluation|]. split; [by_evaluation|].
  split; [by_evaluation|]. vm_compute. intros [? _]. discriminate.
Qed.

Lemma iteration_terminates_witness :
  ∃ it0 n it nodes,
    make_iterator (diamond minimized None unmarked) None = Some it0 ∧
    advance n it0 = Some it ∧
    _finished it = true ∧
    collect n it0 = Some nodes.
Proof.
  refine (iteration_terminates (diamond minimized None unmarked) None
            (diamond_in_range _ _) (or_intror _)).
  discriminate.
Defined.

Lemma diamond_nothing_discovered mode_ current :
  nothing_discovered (diamond mode_ current unmarked).
Proof.
  intros v b. simpl.
  do 4 (destruct v as [|v]; simpl; [congruence|]). destruct v; discriminate.
Qed.

Lemma full_mode_counts_paths_witness :
  let mp := diamond full None unmarked in
  ∃ it0 fuel nodes all_paths,
    make_iterator mp None = Some it0 ∧
    collect fuel it0 = Some nodes ∧
    NoDup all_paths ∧
    (∀ p, p ∈ all_paths ↔ path mp 0%nat p) ∧
    length nodes = length all_paths ∧
    (∀ n it, advance n it0 = Some it → _discovered it = unmarked).
Proof.
  exact (full_mode_counts_paths (diamond full None unmarked) diamond_rank
           eq_refl (diamond_in_range _ _) (diamond_nothing_discovered _ _)
           (diamond_acyclic _ _ _) (diamond_edges_NoDup _ _ _)).
Defined.

(** C3, counterexample: in full mode, for a metaprogram whose current edge
    is the edge root -> A, the traversal yields the two nodes below A,
    while the root has five paths. *)
Lemma full_mode_counts_paths_counterexample :
  let mp := diamond full (Some 0%nat) unmarked in
  get_mode mp = full ∧ acyclic mp diamond_rank ∧ nothing_discovered mp ∧
  (make_iterator mp None ≫= collect 10)
  = Some [mk_call_graph_node "A"%string 0 1;
          mk_call_graph_node "B"%string 1 0] ∧
  NoDup (paths_from mp 2 0) ∧
  (∀ p, p ∈ paths_from mp 2 0 ↔ path mp (get_root_vertex mp) p) ∧
  length (paths_from mp 2 0) = 5%nat.
Proof.
  intros mp. split; [done|]. split; [apply diamond_acyclic|].
  split; [apply diamond_nothing_discovered|].
  split; [by_evaluation|].
  split; [apply paths_from_NoDup, diamond_edges_NoDup|].
  split; [|by_evaluation].
  intros p. split; [apply path_of_paths_from|].
  intros Hp. by apply (paths_from_complete mp diamond_rank
                         (diamond_acyclic _ _ _) _ _ Hp).
Qed.

(** * Properties of the metaprogram builder *)

Section BuilderFacts.
Import Builder.
Context {double : Type}.
Implicit Types (b : metaprogram_builder double) (ev : event double).
Implicit Types (evs : list (event double)).

(** *** Balanced nesting *)

Lemma link_edge_stack b vertex kind poe (ts : double) enabled opened :
  edge_stack (link b vertex kind poe ts enabled opened) =
  if opened then length (edges (mp b)) :: edge_stack b else edge_stack b.
Proof. done. Qed.

Lemma record_frame_edge_stack b node src kind poe (ts : double) opened :
  edge_stack (record_frame b node src kind poe ts opened) =
  if opened then length (edges (mp b)) :: edge_stack b else edge_stack b.
Proof. done. Qed.

Lemma handle_template_begin_edge_stack b kind type_ poe src (ts : double) :
  edge_stack (handle_template_begin b kind type_ poe src ts) =
  length (edges (mp b)) :: edge_stack b.
Proof.
  unfold handle_template_begin, add_vertex.
  by destruct (element_vertex_map b !! _).
Qed.

Lemma handle_opens b ev :
  is_begin ev = true →
  ∃ b' e, handle b ev = Ok b' ∧ edge_stack b' = e :: edge_stack b.
Proof.
  destruct ev; try discriminate; intros _; simpl; eexists _, _;
    (split; [done|]);
    first [apply handle_template_begin_edge_stack|reflexivity].
Qed.

Lemma handle_leaf b ev :
  is_leaf ev = true →
  ∃ b', handle b ev = Ok b' ∧ edge_stack b' = edge_stack b.
Proof.
  destruct ev; try discriminate; intros _; simpl; eexists;
    (split; [done|]); reflexivity.
Qed.

Lemma handle_closes b ev e rest :
  is_end ev = true → edge_stack b = e :: rest →
  ∃ b', handle b ev = Ok b' ∧ edge_stack b' = rest.
Proof.
  destruct ev; try discriminate; intros _ Hs; simpl;
    unfold handle_template_end, handle_macro_expansion_end, handle_include_end,
      handle_preprocessing_condition_end, close_frame;
    rewrite Hs; simpl; try rewrite Hs; by eexists.
Qed.

Lemma handle_underflow b ev :
  is_end ev = true → edge_stack b = [] → handle b ev = Fault stack_underflow.
Proof.
  destruct ev; try discriminate; intros _ Hs; simpl;
    unfold handle_template_end, handle_macro_expansion_end, handle_include_end,
      handle_preprocessing_condition_end, close_frame;
    by rewrite Hs.
Qed.

Lemma run_app evs1 evs2 b :
  run (evs1 ++ evs2) b =
  match run evs1 b with
  | Ok b' => run evs2 b'
  | Fault f => Fault f
  end.
Proof.
  revert b. induction evs1 as [|ev evs1 IH]; intros b; simpl; [done|].
  destruct (handle b ev); [apply IH|done].
Qed.

Lemma balanced_run evs :
  balanced evs →
  ∀ b, ∃ b', run evs b = Ok b' ∧ edge_stack b' = edge_stack b.
Proof.
  induction 1 as [|ev evs Hleaf _ IH
                  |ev_b inner ev_e evs Hb He _ IHinner _ IH]; intros b.
  - by exists b.
  - destruct (handle_leaf b ev Hleaf) as (b1 & Hh & Hs).
    destruct (IH b1) as (b' & Hr & Hs').
    exists b'. simpl. rewrite Hh. split; congruence.
  - destruct (handle_opens b ev_b Hb) as (b1 & e & Hh & Hs1).
    destruct (IHinner b1) as (b2 & Hr2 & Hs2).
    destruct (handle_closes b2 ev_e e (edge_stack b) He) as (b3 & Hh3 & Hs3);
      [congruence|].
    destruct (IH b3) as (b' & Hr & Hs').
    exists b'. simpl. rewrite Hh, run_app, Hr2. simpl. rewrite Hh3.
    split; congruence.
Qed.

(** C7. A balanced event sequence is processed without fault and leaves
    the edge stack as it found it, so empty when the builder was new, and
    the evaluation can then be ended. An end event on an empty edge stack,
    and [handle_evaluation_end] on a non-empty one, are faults: the run
    stops there and returns no graph. *)
Theorem balanced_nesting evs mode_ root_name root_source_location :
  balanced evs →
  (∃ b', run evs (new_builder mode_ root_name root_source_location) = Ok b' ∧
         edge_stack b' = [] ∧
         ∀ result_, ∃ b'', handle_evaluation_end b' result_ = Ok b'') ∧
  (∀ b, ∃ b', run evs b = Ok b' ∧ edge_stack b' = edge_stack b) ∧
  (∀ b ev rest,
     is_end ev = true → edge_stack b = [] →
     handle b ev = Fault stack_underflow ∧
     run (ev :: rest) b = Fault stack_underflow) ∧
  (∀ b result_ rest,
     edge_stack b ≠ [] →
     handle_evaluation_end b result_ = Fault evaluation_end_with_open_edges ∧
     run (evaluation_end result_ :: rest) b
     = Fault evaluation_end_with_open_edges).
Proof.
  intros Hbal. split_and!.
  - destruct (balanced_run evs Hbal
                (new_builder mode_ root_name root_source_location))
      as (b' & Hr & Hs).
    exists b'. split_and!; [done..|].
    intros r. unfold handle_evaluation_end. rewrite Hs. by eexists.
  - by apply balanced_run.
  - intros b ev rest He Hs. simpl. by rewrite (handle_underflow b ev He Hs).
  - intros b r rest Hne. simpl. unfold handle_evaluation_end.
    by destruct (edge_stack b).
Qed.

(** *** Deduplication *)

Lemma new_builder_dedup_invariant mode_ root_name root_source_location :
  dedup_invariant
    (new_builder (double:=double) mode_ root_name root_source_location) [].
Proof.
  split_and!.
  - by eexists _, _.
  - intros k v. simpl. rewrite lookup_empty. split; [done|].
    intros [Hv Hk]. destruct v as [|v]; [done|]. by destruct v.
  - intros k v. simpl. by rewrite lookup_empty.
  - intros k. simpl. rewrite lookup_empty. split.
    + by intros [? ?].
    + by intros ?%elem_of_nil.
Qed.

Lemma mapped_vertex_handle_begin b (ev : template_begin_event double) :
  mapped_vertex (handle_begin b ev) =
  (add_vertex b (node_type (tb_type ev)) (tb_source_location ev)).2.
Proof.
  unfold mapped_vertex, handle_begin, handle_template_begin, top_vertex.
  destruct (add_vertex b _ _) as [b1 v]. simpl.
  unfold get_target. simpl.
  rewrite lookup_app_r by done. by rewrite Nat.sub_diag.
Qed.

Lemma handle_begin_map b (ev : template_begin_event double) :
  element_vertex_map (handle_begin b ev) =
  element_vertex_map
    (add_vertex b (node_type (tb_type ev)) (tb_source_location ev)).1 ∧
  vertices (mp (handle_begin b ev)) =
  vertices
    (mp (add_vertex b (node_type (tb_type ev)) (tb_source_location ev)).1).
Proof.
  unfold handle_begin, handle_template_begin.
  by destruct (add_vertex b _ _) as [b1 v].
Qed.

(** One begin event: its key is in the map afterwards, bound to the vertex
    the event was mapped to; older bindings are kept. *)
Lemma handle_begin_dedup b seen (ev : template_begin_event double) :
  dedup_invariant b seen →
  dedup_invariant (handle_begin b ev) (dedup_key ev :: seen) ∧
  element_vertex_map (handle_begin b ev) !! dedup_key ev
  = Some (mapped_vertex (handle_begin b ev)) ∧
  (∀ k v, element_vertex_map b !! k = Some v →
          element_vertex_map (handle_begin b ev) !! k = Some v).
Proof.
  intros (Hroot & Hmap & Htype & Hdom).
  rewrite mapped_vertex_handle_begin.
  destruct (handle_begin_map b ev) as [Hm Hvs].
  unfold dedup_invariant. rewrite Hm, Hvs. clear Hm Hvs.
  unfold add_vertex, dedup_key.
  set (k0 := (node_type (tb_type ev), tb_source_location ev)).
  destruct (element_vertex_map b !! k0) as [v0|] eqn:Hk0; simpl.
  - split_and!; try done.
    intros k. rewrite Hdom, elem_of_cons. split; [by right|].
    intros [->|?]; [|done]. apply Hdom. by eexists.
  - destruct Hroot as (rn & rl & Hroot).
    assert (0 < length (vertices (mp b)))%nat as Hlen
      by (by eapply lookup_lt_Some).
    split_and!.
    + exists rn, rl. by rewrite lookup_app_l.
    + intros k v. destruct (decide (k = k0)) as [->|Hne].
      * rewrite lookup_insert_eq. split.
        -- intros [= <-]. split; [lia|].
           rewrite lookup_app_r by done. by rewrite Nat.sub_diag.
        -- intros [Hv Hk]. f_equal.
           destruct (decide (v < length (vertices (mp b)))%nat) as [Hlt|Hge].
           ++ rewrite lookup_app_l in Hk by done.
              assert (element_vertex_map b !! k0 = Some v) as Habs
                by (by apply Hmap).
              congruence.
           ++ destruct (decide (v = length (vertices (mp b)))) as [->|Hne];
                [done|].
              rewrite lookup_ge_None_2 in Hk; [done|].
              rewrite length_app. simpl. lia.
      * rewrite lookup_insert_ne by done. rewrite Hmap. split.
        -- intros [Hv Hk]. split; [done|].
           rewrite lookup_app_l; [done|].
           destruct (vertices (mp b) !! v) eqn:Hlk; [|done].
           by eapply lookup_lt_Some.
        -- intros [Hv Hk]. split; [done|].
           destruct (decide (v < length (vertices (mp b)))%nat) as [Hlt|Hge].
           ++ by rewrite lookup_app_l in Hk.
           ++ destruct (decide (v = length (vertices (mp b)))) as [->|Hne'].
              ** rewrite lookup_app_r in Hk by done.
                 rewrite Nat.sub_diag in Hk. simpl in Hk.
                 exfalso. apply Hne. by inversion Hk.
              ** rewrite lookup_ge_None_2 in Hk; [done|].
                 rewrite length_app. simpl. lia.
    + intros k v. destruct (decide (k = k0)) as [->|Hne].
      * intros _. by eexists.
      * rewrite lookup_insert_ne by done. apply Htype.
    + intros k. rewrite elem_of_cons. destruct (decide (k = k0)) as [->|Hne].
      * rewrite lookup_insert_eq. split; [by left|by eexists].
      * rewrite lookup_insert_ne by done. rewrite Hdom. split; [by right|].
        by intros [?|?].
    + by rewrite lookup_insert_eq.
    + intros k v Hk. rewrite lookup_insert_ne; [done|]. congruence.
Qed.

(** One template-step begin, whatever the stream before it: older bindings
    are kept, the only key that may be new is the event's, and it is bound
    to the vertex the event was mapped to. *)
Lemma handle_template_begin_stream b kind type_ poe src (ts : double) :
  stream_invariant b →
  stream_invariant (handle_template_begin b kind type_ poe src ts) ∧
  (∀ k v, element_vertex_map b !! k = Some v →
          element_vertex_map (handle_template_begin b kind type_ poe src ts)
            !! k = Some v) ∧
  (∀ k, is_Some (element_vertex_map
                   (handle_template_begin b kind type_ poe src ts) !! k) ↔
        is_Some (element_vertex_map b !! k) ∨ k = (node_type type_, src)) ∧
  element_vertex_map (handle_template_begin b kind type_ poe src ts)
    !! (node_type type_, src)
  = Some (mapped_vertex (handle_template_begin b kind type_ poe src ts)).
Proof.
  intros [Hlen Hmap].
  pose (ev := mk_template_begin_event kind type_ poe src ts).
  change (handle_template_begin b kind type_ poe src ts)
    with (handle_begin b ev).
  rewrite mapped_vertex_handle_begin.
  destruct (handle_begin_map b ev) as [Hm Hvs].
  unfold stream_invariant. rewrite Hm, Hvs. clear Hm Hvs. simpl.
  unfold add_vertex.
  set (k0 := (node_type type_, src)).
  destruct (element_vertex_map b !! k0) as [v0|] eqn:Hk0; simpl.
  - split_and!; try done.
    intros k. split; [by left|]. intros [?| ->]; [done|by eexists].
  - split_and!.
    + rewrite length_app. simpl. lia.
    + intros k v. destruct (decide (k = k0)) as [->|Hne].
      * rewrite lookup_insert_eq. intros [= <-]. split; [lia|].
        rewrite lookup_app_r by done. by rewrite Nat.sub_diag.
      * rewrite lookup_insert_ne by done. intros [Hv Hk]%Hmap.
        split; [done|]. rewrite lookup_app_l; [done|].
        destruct (vertices (mp b) !! v) eqn:Hlk; [|done].
        by eapply lookup_lt_Some.
    + intros k v Hk. rewrite lookup_insert_ne; [done|]. congruence.
    + intros k. destruct (decide (k = k0)) as [->|Hne].
      * rewrite lookup_insert_eq. split; [by right|by eexists].
      * rewrite lookup_insert_ne by done. split; [by left|].
        by intros [?|?].
    + by rewrite lookup_insert_eq.
Qed.

(** Every other event leaves the map alone and only appends vertices. *)
Lemma handle_other_stream b ev b' :
  template_key ev = None →
  handle b ev = Ok b' →
  element_vertex_map b' = element_vertex_map b ∧
  ∃ l, vertices (mp b') = vertices (mp b) ++ l.
Proof.
  destruct ev; try discriminate; intros _; simpl;
    unfold handle_template_end, handle_macro_expansion_end,
      handle_include_end, handle_preprocessing_condition_end,
      handle_evaluation_end, close_frame;
    try (destruct (edge_stack b); [discriminate|]; simpl);
    try (destruct (edge_stack b); [|discriminate]; simpl);
    intros [= <-]; (split; [done|]);
    first [by eexists [_] | exists []; by rewrite app_nil_r].
Qed.

Lemma handle_stream b ev b' :
  stream_invariant b →
  handle b ev = Ok b' →
  stream_invariant b' ∧
  (∀ k v, element_vertex_map b !! k = Some v →
          element_vertex_map b' !! k = Some v) ∧
  (∀ k, is_Some (element_vertex_map b' !! k) ↔
        is_Some (element_vertex_map b !! k) ∨ template_key ev = Some k) ∧
  (∀ k, template_key ev = Some k →
        element_vertex_map b' !! k = Some (mapped_vertex b')).
Proof.
  intros Hinv Hh.
  destruct (template_key ev) as [k0|] eqn:Hkey.
  - destruct ev; try discriminate. simpl in Hkey, Hh.
    inversion Hkey; subst k0. inversion Hh; subst b'.
    destruct (handle_template_begin_stream b kind type_ point_of_event
                source_location timestamp Hinv) as (H1 & H2 & H3 & H4).
    split_and!; try done.
    + intros k. rewrite H3. split; (intros [?|?]; [by left|right]);
        congruence.
    + by intros k [= <-].
  - destruct (handle_other_stream b ev b' Hkey Hh) as [Hm [l Hvs]].
    destruct Hinv as [Hlen Hmap].
    unfold stream_invariant. rewrite Hm, Hvs. split_and!; try done.
    + rewrite length_app. lia.
    + intros k v [Hv Hk]%Hmap. split; [done|].
      rewrite lookup_app_l; [done|].
      destruct (vertices (mp b) !! v) eqn:Hlk; [|done].
      by eapply lookup_lt_Some.
    + intros k. split; [by left|]. by intros [?|?].
Qed.

Lemma run_mapped_cons_inv ev evs b b' vs :
  run_mapped (ev :: evs) b = Ok (b', vs) →
  ∃ b1 vs1, handle b ev = Ok b1 ∧ run_mapped evs b1 = Ok (b', vs1) ∧
            vs = mapped_to b1 ev :: vs1.
Proof.
  simpl. destruct (handle b ev) as [b1|]; [|done].
  destruct (run_mapped evs b1) as [[b2 vs1]|] eqn:Hr; [|done].
  simpl. intros [= <- <-]. by exists b1, vs1.
Qed.

(** Any stream, from any state that satisfies the invariant. *)
Lemma run_mapped_stream evs : ∀ b b' vs,
  stream_invariant b →
  run_mapped evs b = Ok (b', vs) →
  stream_invariant b' ∧
  run evs b = Ok b' ∧
  length vs = length evs ∧
  (∀ k v, element_vertex_map b !! k = Some v →
          element_vertex_map b' !! k = Some v) ∧
  (∀ k, is_Some (element_vertex_map b' !! k) ↔
        is_Some (element_vertex_map b !! k) ∨ k ∈ omap template_key evs) ∧
  (∀ i ev v, evs !! i = Some ev → vs !! i = Some (Some v) →
             ∃ k, template_key ev = Some k ∧
                  element_vertex_map b' !! k = Some v) ∧
  (∀ i ev k, evs !! i = Some ev → template_key ev = Some k →
             ∃ v, vs !! i = Some (Some v)).
Proof.
  induction evs as [|ev evs IH]; intros b b' vs Hinv Hrun.
  - simpl in Hrun. inversion Hrun; subst b' vs.
    split_and!; try done.
    intros k. simpl. split; [by left|]. by intros [?|?%elem_of_nil].
  - apply run_mapped_cons_inv in Hrun as (b1 & vs1 & Hh & Hrun & ->).
    destruct (handle_stream b ev b1 Hinv Hh) as (Hinv1 & Hmono1 & Hdom1 & Hk1).
    destruct (IH b1 b' vs1 Hinv1 Hrun)
      as (Hinv' & Hr & Hlen & Hmono & Hdom & Hvs & Hex).
    split_and!.
    + done.
    + simpl. by rewrite Hh.
    + simpl. by rewrite Hlen.
    + intros k v Hk. by apply Hmono, Hmono1.
    + intros k. rewrite Hdom, Hdom1. simpl.
      destruct (template_key ev) as [k0|]; [rewrite elem_of_cons|];
        split; intros H; intuition congruence.
    + intros [|i] ev' v Hi Hv; simpl in Hi, Hv.
      * inversion Hi; subst ev'.
        destruct ev; simpl in Hv; try discriminate.
        inversion Hv; subst v. eexists. split; [done|].
        apply Hmono. by apply Hk1.
      * by apply (Hvs i).
    + intros [|i] ev' k Hi Hk; simpl in Hi.
      * inversion Hi; subst ev'. destruct ev; try discriminate.
        simpl. by eexists.
      * by apply (Hex i ev' k).
Qed.

Lemma run_mapped_app_inv evs : ∀ later b b_end vs_end,
  run_mapped (evs ++ later) b = Ok (b_end, vs_end) →
  ∃ b' vs, run_mapped evs b = Ok (b', vs).
Proof.
  induction evs as [|ev evs IH]; intros later b b_end vs_end Hrun.
  - by exists b, [].
  - rewrite <- app_comm_cons in Hrun.
    apply run_mapped_cons_inv in Hrun as (b1 & vs1 & Hh & Hrun & _).
    destruct (IH _ _ _ _ Hrun) as (b' & vs & Hr).
    exists b', (mapped_to b1 ev :: vs). simpl. by rewrite Hh, Hr.
Qed.

(** A stream of template-step events alone keeps the stronger invariant:
    the map reaches every vertex but the root. *)
Lemma run_template_only evs : ∀ b b' seen,
  Forall (λ ev, is_template_event ev = true) evs →
  dedup_invariant b seen →
  run evs b = Ok b' →
  ∃ seen', dedup_invariant b' seen'.
Proof.
  induction evs as [|ev evs IH]; intros b b' seen Hall Hinv Hrun.
  - simpl in Hrun. inversion Hrun; subst b'. by exists seen.
  - apply Forall_cons in Hall as [Hev Hall]. simpl in Hrun.
    destruct ev; try discriminate; simpl in Hrun.
    + pose (e := mk_template_begin_event kind type_ point_of_event
                   source_location timestamp).
      destruct (handle_begin_dedup b seen e Hinv) as (Hinv1 & _ & _).
      by apply (IH _ _ _ Hall Hinv1 Hrun).
    + unfold handle_template_end, close_frame in Hrun.
      destruct (edge_stack b) as [|e rest]; [done|].
      by apply (IH _ _ seen Hall) in Hrun.
Qed.


End BuilderFacts.

(** ** The builder on a small trace *)

Lemma balanced_nesting_witness :
  let loc := Builder.mk_file_location "fib.hpp" 3 1 in
  let evs : list (Builder.event Z) :=
    [Builder.template_begin Builder.template_instantiation "fib<3>" loc loc 0;
     Builder.define "N" None "3" loc 1;
     Builder.template_end 2] in
  Builder.balanced evs ∧
  ∃ b', Builder.run evs (Builder.new_builder full "int_<fib<3>::value>" loc)
        = Builder.Ok b' ∧
        Builder.edge_stack b' = [] ∧
        ∀ result_, ∃ b'',
          Builder.handle_evaluation_end b' result_ = Builder.Ok b''.
Proof.
  intros loc evs.
  assert (Builder.balanced evs) as Hbal.
  { apply (Builder.balanced_pair _ [Builder.define "N" None "3" loc 1] _ []);
      [reflexivity|reflexivity| |constructor].
    apply Builder.balanced_leaf; [reflexivity|constructor]. }
  split; [exact Hbal|].
  exact (proj1 (balanced_nesting evs full "int_<fib<3>::value>" loc Hbal)).
Defined.

(** Evaluates a run of the builder and names the state it ends in and the
    vertices the events were mapped to. *)
Ltac pose_run b vs t :=
  let v := eval vm_compute in t in
  lazymatch v with
  | Builder.Ok (?a, ?l) => pose (b := a); pose (vs := l)
  end.



(** * Further properties of the forward trace iterator *)

Section ForwardTraceShapeFacts.
Context {frame : Type} `{!Inhabited frame}.
Implicit Types (mp : metaprogram frame) (it : forward_trace_iterator frame).
Implicit Types (s : list (optional_edge_descriptor * Z)).

(** A property that [operator++] preserves holds all along a traversal. *)
Lemma advance_invariant (inv : forward_trace_iterator frame → Prop) :
  (∀ it it', inv it → increment it = Some it' → inv it') →
  ∀ n it it', inv it → advance n it = Some it' → inv it'.
Proof.
  intros Hstep. induction n as [|n IH]; intros it it' Hinv.
  - by intros [= <-].
  - intros (it1 & Hi & Ha)%advance_S_inv. eapply IH; [|exact Ha]. eauto.
Qed.

Lemma set_finished_id it : _finished it = true → set_finished it true = it.
Proof. destruct it. simpl. by intros ->. Qed.

(** X1. An iterator obtained from the constructor is finished only with an
    empty pending stack, so once finished it stays as it is under any
    number of further [operator++] calls. *)
Theorem finished_is_absorbing mp max_depth_ it0 n it :
  make_iterator mp max_depth_ = Some it0 →
  advance n it0 = Some it →
  _finished it = true →
  _to_visit it = [] ∧ ∀ m, advance m it = Some it.
Proof.
  intros Hmk Hadv Hfin.
  assert (_finished it = true → _to_visit it = []) as Hinv.
  { revert Hadv.
    apply (advance_invariant (λ it, _finished it = true → _to_visit it = [])).
    - intros i i' Hi [[Hs ->]|(e & k & rest & Hs & Hv)]%increment_spec Hf';
        [done|].
      apply visit_spec in Hv as (? & ? & _ & _ & _ & Hf & _).
      simpl in Hf. rewrite Hf in Hf'. rewrite (Hi Hf') in Hs. done.
    - unfold make_iterator in Hmk.
      apply visit_spec in Hmk as (? & ? & _ & _ & _ & Hf & _).
      simpl in Hf. congruence. }
  split; [by apply Hinv|].
  assert (increment it = Some it) as Hinc.
  { unfold increment. rewrite (Hinv Hfin). by rewrite set_finished_id. }
  induction m as [|m IH]; simpl; [done|]. by rewrite Hinc.
Qed.

Lemma descending_weaken k k' s : descending k s → k ≤ k' → descending k' s.
Proof. destruct s as [|en s]; simpl; [done|]. intros [? ?] ?. split; [lia|done]. Qed.

Lemma descending_level k (l : list (optional_edge_descriptor * Z)) s :
  Forall (λ en, en.2 = k + 1) l →
  descending k s → descending (k + 1) (l ++ s).
Proof.
  intros Hall Hs. induction Hall as [|en l Hen _ IH]; simpl.
  - eapply descending_weaken; [done|lia].
  - split; [lia|]. by rewrite Hen.
Qed.

Lemma descending_pushed edges k s :
  descending k s → descending (k + 1) (pushed edges k ++ s).
Proof.
  intros Hs. apply descending_level; [|done].
  unfold pushed. apply Forall_reverse, Forall_fmap, Forall_forall.
  by intros ? _.
Qed.

Lemma visit_shape it edge_ depth_ it' :
  0 ≤ depth_ →
  Forall (λ en, 0 < en.2) (_to_visit it) →
  descending depth_ (_to_visit it) →
  visit it edge_ depth_ = Some it' →
  shape_invariant it' ∧ node_depth (_current it') = depth_.
Proof.
  intros Hk Hpos Hdesc
    (mp & d & _ & _ & _ & _ & _ & Hcur & _ & Hto)%visit_spec.
  unfold shape_invariant. rewrite Hcur, Hto. simpl.
  split; [|done]. split; [done|].
  destruct (negb d && depth_left (_max_depth it) depth_).
  - split.
    + apply Forall_app. split; [|done].
      unfold pushed. apply Forall_reverse, Forall_fmap, Forall_forall.
      intros ? _. simpl. lia.
    + by apply descending_pushed.
  - split; [done|]. eapply descending_weaken; [done|lia].
Qed.

Lemma increment_shape it it' :
  shape_invariant it → increment it = Some it' →
  shape_invariant it' ∧
  node_depth (_current it') ≤ node_depth (_current it) + 1.
Proof.
  intros (H0 & Hpos & Hdesc)
    [[_ ->]|(e & k & rest & Hs & Hv)]%increment_spec.
  - split; [done|]. simpl. lia.
  - rewrite Hs in Hpos, Hdesc.
    apply Forall_cons in Hpos as [Hk Hpos]. simpl in Hk, Hdesc.
    destruct Hdesc as [Hle Hdesc].
    destruct (visit_shape (set_to_visit it rest) e k it') as [Hinv Hd];
      simpl; [lia|done|done|done|].
    split; [done|]. lia.
Qed.

(** X2. The first node is at depth 0, no node has a negative depth, and
    each [operator++] moves at most one level deeper: the yielded sequence
    can be printed as an indented tree. *)
Theorem depth_grows_by_at_most_one mp max_depth_ it0 n it it' :
  make_iterator mp max_depth_ = Some it0 →
  advance n it0 = Some it →
  increment it = Some it' →
  node_depth (dereference it0) = 0 ∧
  0 ≤ node_depth (dereference it) ∧
  node_depth (dereference it') ≤ node_depth (dereference it) + 1.
Proof.
  intros Hmk Hadv Hinc. unfold make_iterator in Hmk.
  match type of Hmk with visit ?i ?e ?k = _ =>
    destruct (visit_shape i e k it0) as [Hinv0 Hd0]; simpl; try done end.
  assert (shape_invariant it) as Hinv.
  { revert Hadv. apply (advance_invariant shape_invariant); [|done].
    intros i i' Hi Hs. by apply (increment_shape i i'). }
  destruct (increment_shape it it' Hinv Hinc) as [_ Hstep].
  split_and!; [done| |done]. by destruct Hinv.
Qed.

(** X3. For a metaprogram whose enabled out-degree is the number of
    filtered out-edges, the child count a node reports is the number of
    entries its visit pushed, all one level deeper and each an out-edge of
    the visited vertex. *)
Theorem child_count_is_number_pushed mp it edge_ depth_ it' :
  _mp it = Some mp →
  (∀ v, get_enabled_out_degree mp v
        = length (get_filtered_out_edges mp v)) →
  visit it edge_ depth_ = Some it' →
  ∃ new,
    _to_visit it' = new ++ _to_visit it ∧
    length new = node_number_of_children (dereference it') ∧
    Forall (λ en, en.2 = depth_ + 1 ∧
                  ∃ e, en.1 = Some e ∧
                       e ∈ get_filtered_out_edges mp (vertex_of mp edge_))
           new.
Proof.
  intros Hmp Hdeg (mp' & d & Hmp' & _ & _ & _ & _ & Hcur & _ & Hto)%visit_spec.
  assert (mp' = mp) as -> by congruence.
  unfold dereference. rewrite Hcur, Hto, depth_left_reached. simpl.
  destruct d; simpl; [by exists []|].
  destruct (depth_reached (_max_depth it) depth_); simpl; [by exists []|].
  exists (pushed (get_filtered_out_edges mp (vertex_of mp edge_)) depth_).
  split; [done|]. unfold pushed. split.
  - by rewrite length_reverse, length_fmap, Hdeg.
  - apply Forall_reverse, Forall_fmap, Forall_forall.
    intros e He. simpl. split; [done|]. by exists e.
Qed.

Lemma advance_length_discovered n : ∀ it it',
  advance n it = Some it' →
  length (_discovered it') = length (_discovered it).
Proof.
  induction n as [|n IH]; intros it it'.
  - by intros [= <-].
  - intros (it1 & Hi & Ha)%advance_S_inv. rewrite (IH _ _ Ha).
    apply increment_spec in Hi as [[_ ->]|(e & k & rest & _ & Hv)]; [done|].
    by rewrite (visit_length_discovered _ _ _ _ Hv).
Qed.

(** X4. The iterator's copy of the discovered array keeps its size and only
    gains marks along a traversal; in [full] mode it does not change at
    all. *)
Theorem discovered_only_gains_marks mp it n it' :
  _mp it = Some mp →
  advance n it = Some it' →
  length (_discovered it') = length (_discovered it) ∧
  (∀ v, _discovered it !! v = Some true → _discovered it' !! v = Some true) ∧
  (get_mode mp = full → _discovered it' = _discovered it).
Proof.
  intros Hmp Hadv. split_and!.
  - by apply (advance_length_discovered n).
  - intros v. by apply (advance_mark_stays n).
  - intros Hmode. by apply (advance_full_discovered mp n).
Qed.

(** *** How many nodes a deduplicated traversal yields *)

Lemma unmarked_out_degree_mark mp l : ∀ i v,
  l !! v = Some false →
  (unmarked_out_degree mp i (<[v := true]> l)
   + length (get_filtered_out_edges mp (i + v))
   = unmarked_out_degree mp i l)%nat.
Proof.
  induction l as [|b l IH]; intros i v Hv; [done|].
  destruct v as [|v]; simpl in *.
  - inversion Hv; subst b. rewrite Nat.add_0_r. lia.
  - specialize (IH (S i) v Hv).
    replace (i + S v)%nat with (S i + v)%nat by lia. lia.
Qed.

(** What a visit outside [full] mode does to the pending entries and the
    out-edges of the unmarked vertices, taken together. *)
Lemma visit_unmarked_out_degree mp it edge_ depth_ it' :
  get_mode mp ≠ full → _mp it = Some mp →
  visit it edge_ depth_ = Some it' →
  (length (_to_visit it') + unmarked_out_degree mp 0 (_discovered it')
   ≤ length (_to_visit it) + unmarked_out_degree mp 0 (_discovered it))%nat.
Proof.
  intros Hmode Hmp
    (mp' & b & Hmp1 & Hlk & _ & _ & _ & _ & Hd & Hto)%visit_spec.
  assert (mp' = mp) as -> by congruence.
  rewrite Hd, Hto. rewrite bool_decide_eq_true_2 by done.
  destruct b; simpl; [lia|].
  pose proof (unmarked_out_degree_mark mp _ 0 _ Hlk) as Hw. simpl in Hw.
  destruct (depth_left _ _).
  - rewrite length_app. unfold pushed.
    rewrite length_reverse, length_fmap. lia.
  - lia.
Qed.

Lemma finishes_within (inv : forward_trace_iterator frame → Prop)
    (measure : forward_trace_iterator frame → nat) :
  (∀ it, inv it → _to_visit it ≠ [] →
         ∃ it', increment it = Some it' ∧ inv it' ∧
                (measure it' < measure it)%nat) →
  ∀ it, inv it →
        ∃ n it', advance n it = Some it' ∧ _finished it' = true ∧
                 (n ≤ S (measure it))%nat.
Proof.
  intros Hstep it. remember (measure it) as m eqn:Hm. revert it Hm.
  induction m as [m IH] using lt_wf_ind. intros it -> Hinv.
  destruct (_to_visit it) as [|entry rest] eqn:Hs.
  - exists 1%nat, (set_finished it true). split_and!; [|done|lia].
    simpl. unfold increment. by rewrite Hs.
  - destruct (Hstep it Hinv) as (it1 & Hinc & Hinv1 & Hlt); [by rewrite Hs|].
    destruct (IH _ Hlt it1 eq_refl Hinv1) as (n & it' & Hadv & Hfin & Hn).
    exists (S n), it'. split_and!; [|done|lia]. simpl. by rewrite Hinc.
Qed.

(** X5. Outside [full] mode a traversal yields at most one node more than
    there are out-edges of vertices unmarked at the start, whatever the
    depth ceiling: its length is linear in the size of the graph. *)
Theorem minimized_yields_linearly_many mp max_depth_ :
  in_range mp →
  get_mode mp ≠ full →
  ∃ it0 fuel nodes,
    make_iterator mp max_depth_ = Some it0 ∧
    collect fuel it0 = Some nodes ∧
    (length nodes ≤ S (unmarked_out_degree mp 0 (discovered mp)))%nat.
Proof.
  intros Hrange Hmode.
  pose (init := mk_iterator false max_depth_ (Some mp) (discovered mp) []
                            (mk_call_graph_node inhabitant 0 0%nat)).
  destruct (visit_defined init (get_current_edge mp) 0 mp) as [it0 Hv];
    [done|by apply in_range_vertex_of|].
  destruct (visit_array_size mp init _ _ _ eq_refl eq_refl Hv) as [Hmp0 Hlen0].
  pose proof (visit_unmarked_out_degree mp init _ _ _ Hmode eq_refl Hv) as H0.
  simpl in H0.
  destruct (finishes_within
              (λ it, _mp it = Some mp ∧
                     length (_discovered it) = length (discovered mp))
              (λ it, (length (_to_visit it)
                      + unmarked_out_degree mp 0 (_discovered it))%nat))
    with (it := it0) as (n & it & Hadv & Hfin & Hn); [|done|].
  { intros it (Hmp & Hlen) Hne.
    destruct (_to_visit it) as [|[e k] rest] eqn:Hs; [done|].
    destruct (visit_defined (set_to_visit it rest) e k mp) as [it' Hv'];
      [done|simpl; rewrite Hlen; by apply in_range_vertex_of|].
    exists it'. split; [unfold increment; by rewrite Hs|].
    split;
      [by apply (visit_array_size mp (set_to_visit it rest) _ _ _ Hmp Hlen Hv')|].
    pose proof (visit_unmarked_out_degree mp (set_to_visit it rest) _ _ _
                  Hmode Hmp Hv') as Hle.
    simpl in Hle. simpl. lia. }
  destruct (collect_of_advance _ _ _ Hadv Hfin) as (nodes & Hc & Hl).
  exists it0, n, nodes. split_and!; [done..|]. simpl in Hn. lia.
Qed.

(** *** The traversal in full mode, node by node *)

Lemma unfolding_stable mp rank :
  acyclic mp rank →
  ∀ n m edge_ depth_,
    (rank (vertex_of mp edge_) ≤ n)%nat →
    (rank (vertex_of mp edge_) ≤ m)%nat →
    unfolding mp n edge_ depth_ = unfolding mp m edge_ depth_.
Proof.
  intros Hacyc.
  assert (∀ edge_, rank (vertex_of mp edge_) = 0%nat →
                   get_filtered_out_edges mp (vertex_of mp edge_) = [])
    as Hleaf.
  { intros edge_ Hv.
    destruct (get_filtered_out_edges mp (vertex_of mp edge_))
      as [|e es] eqn:He; [done|].
    pose proof (Hacyc (vertex_of mp edge_) e) as Hlt. rewrite He in Hlt.
    specialize (Hlt (list_elem_of_here _ _)). lia. }
  induction n as [|n IH]; intros m edge_ depth_ Hn Hm.
  - destruct m as [|m]; [done|]. simpl. rewrite Hleaf by lia. done.
  - destruct m as [|m]; simpl.
    + rewrite Hleaf by lia. done.
    + f_equal. apply Forall_bind_ext, Forall_forall. intros e He.
      rewrite elem_of_reverse in He.
      pose proof (Hacyc _ e He). apply IH; simpl; lia.
Qed.

(** The unfolding below an entry is its node followed by the unfoldings
    below the entries its visit pushes, top of the stack first. *)
Lemma unfolding_pushed mp rank edge_ depth_ :
  acyclic mp rank →
  unfolding mp (rank (vertex_of mp edge_)) edge_ depth_ =
  mk_call_graph_node (frame_of mp edge_) depth_
                     (get_enabled_out_degree mp (vertex_of mp edge_))
  :: (en ← pushed (get_filtered_out_edges mp (vertex_of mp edge_)) depth_;
      unfolding mp (rank (vertex_of mp en.1)) en.1 en.2).
Proof.
  intros Hacyc.
  rewrite (unfolding_stable mp rank Hacyc _ (S (rank (vertex_of mp edge_))))
    by lia.
  simpl. f_equal. unfold pushed. rewrite <- fmap_reverse, list_fmap_bind.
  apply Forall_bind_ext, Forall_forall. intros e He.
  rewrite elem_of_reverse in He. pose proof (Hacyc _ e He). simpl.
  apply (unfolding_stable mp rank Hacyc); simpl; lia.
Qed.

Lemma visit_full_current mp it edge_ depth_ it' :
  nothing_discovered mp → full_invariant mp it →
  visit it edge_ depth_ = Some it' →
  _current it' =
  mk_call_graph_node (frame_of mp edge_) depth_
                     (get_enabled_out_degree mp (vertex_of mp edge_)).
Proof.
  intros Hnone (Hmp & Hmd & Hdisc & _)
    (mp' & b & Hmp1 & Hlk & _ & _ & _ & Hcur & _)%visit_spec.
  assert (mp' = mp) as -> by congruence.
  rewrite Hdisc in Hlk. apply Hnone in Hlk as ->.
  by rewrite Hcur, Hmd.
Qed.

Lemma collect_unfolding mp rank :
  get_mode mp = full → in_range mp → nothing_discovered mp →
  acyclic mp rank →
  ∀ m it,
    full_invariant mp it →
    length (en ← _to_visit it;
            unfolding mp (rank (vertex_of mp en.1)) en.1 en.2) = m →
    collect (S m) it =
    Some (dereference it
          :: (en ← _to_visit it;
              unfolding mp (rank (vertex_of mp en.1)) en.1 en.2)).
Proof.
  intros Hmode Hrange Hnone Hacyc.
  induction m as [|m IH]; intros it Hinv Hm.
  - destruct (_to_visit it) as [|[e k] rest] eqn:Hs.
    + destruct Hinv as (_ & _ & _ & Hfin).
      simpl. unfold iterator_eq, increment. simpl. rewrite Hfin, Hs. simpl.
      unfold iterator_eq. simpl. done.
    + rewrite bind_cons, length_app in Hm. simpl in Hm.
      destruct rank; simpl in Hm; lia.
  - destruct (_to_visit it) as [|[e k] rest] eqn:Hs; [done|].
    assert (full_invariant mp (set_to_visit it rest)) as Hinvr
      by (by destruct Hinv as (? & ? & ? & ?)).
    destruct (visit_full mp (set_to_visit it rest) e k)
      as (it' & Hv & Hinv' & Hto); try done.
    simpl in Hto.
    pose proof (visit_full_current mp _ _ _ _ Hnone Hinvr Hv) as Hcur.
    assert (((e, k) :: rest)
              ≫= (λ en : optional_edge_descriptor * Z,
                    unfolding mp (rank (vertex_of mp en.1)) en.1 en.2)
            = _current it'
              :: (_to_visit it'
                    ≫= (λ en : optional_edge_descriptor * Z,
                          unfolding mp (rank (vertex_of mp en.1)) en.1 en.2)))
      as Heq.
    { rewrite bind_cons, Hcur, Hto, bind_app. simpl.
      by rewrite (unfolding_pushed mp rank e k Hacyc). }
    rewrite Heq in Hm |- *. simpl in Hm.
    destruct Hinv as (_ & _ & _ & Hfin).
    apply (collect_step _ _ it'); [done|unfold increment; by rewrite Hs|].
    rewrite IH; [done|done|lia].
Qed.

(** X6. In [full] mode without depth ceiling, over an acyclic graph with no
    vertex marked, the traversal yields exactly the call tree below the
    start, each node followed by the subtrees of its out-edges, last
    out-edge first, with depths counted from 0 and the enabled out-degree
    as child count. *)
Theorem full_mode_yields_unfolding mp rank :
  get_mode mp = full →
  in_range mp →
  nothing_discovered mp →
  acyclic mp rank →
  ∃ it0 fuel,
    make_iterator mp None = Some it0 ∧
    collect fuel it0 =
    Some (unfolding mp (rank (vertex_of mp (get_current_edge mp)))
                    (get_current_edge mp) 0).
Proof.
  intros Hmode Hrange Hnone Hacyc.
  pose (init := mk_iterator false None (Some mp) (discovered mp) []
                            (mk_call_graph_node inhabitant 0 0%nat)).
  assert (full_invariant mp init) as Hinit by done.
  destruct (visit_full mp init (get_current_edge mp) 0)
    as (it0 & Hv & Hinv0 & Hto); try done.
  simpl in Hto. rewrite app_nil_r in Hto.
  pose proof (visit_full_current mp _ _ _ _ Hnone Hinit Hv) as Hcur.
  exists it0. eexists. split; [done|].
  rewrite (collect_unfolding mp rank Hmode Hrange Hnone Hacyc _ it0 Hinv0
             eq_refl).
  unfold dereference.
  by rewrite Hcur, Hto, (unfolding_pushed mp rank _ 0 Hacyc).
Qed.

(** *** Edge cases of the depth ceiling *)

(** X7. With a maximum depth of 0 or less the traversal consists of the
    start node alone, reported without children, and nothing is pending. *)
Theorem nonpositive_ceiling_yields_start_only mp d :
  d ≤ 0 →
  (vertex_of mp (get_current_edge mp) < length (discovered mp))%nat →
  ∃ it0,
    make_iterator mp (Some d) = Some it0 ∧
    _to_visit it0 = [] ∧
    collect 1 it0 =
    Some [mk_call_graph_node (frame_of mp (get_current_edge mp)) 0 0%nat].
Proof.
  intros Hd Hlt. unfold make_iterator.
  match goal with |- context [visit ?i ?e ?k] =>
    destruct (visit_defined i e k mp eq_refl Hlt) as [it0 Hv] end.
  exists it0. split; [done|].
  apply visit_spec in Hv
    as (mp' & b & [= <-] & _ & _ & Hfin & _ & Hcur & _ & Hto).
  simpl in Hfin, Hcur, Hto.
  assert ((d <=? 0) = true) as Hle by (by apply Z.leb_le).
  assert ((d >? 0) = false) as Hgt by (rewrite Z.gtb_ltb; by apply Z.ltb_ge).
  rewrite Hle, orb_true_r in Hcur. rewrite Hgt, andb_false_r in Hto.
  split; [done|].
  simpl. unfold iterator_eq, increment, dereference. simpl.
  rewrite Hfin, Hto, Hcur. simpl. unfold iterator_eq. simpl. done.
Qed.

(** *** Nodes and paths *)

Lemma path_snoc mp v p e :
  path mp v p →
  e ∈ get_filtered_out_edges mp (path_target mp v p) →
  path mp v (p ++ [e]).
Proof.
  induction 1 as [v|v e' p He' Hp IH]; simpl; intros He.
  - apply path_cons; [done|constructor].
  - apply path_cons; [done|]. by apply IH.
Qed.

Lemma path_target_snoc mp v p e :
  path_target mp v (p ++ [e]) = get_target mp e.
Proof. revert v. induction p as [|e' p IH]; intros v; simpl; [done|apply IH]. Qed.

Lemma visit_on_paths mp start it edge_ depth_ it' p :
  _mp it = Some mp →
  path mp start p →
  path_target mp start p = vertex_of mp edge_ →
  depth_ = Z.of_nat (length p) →
  on_paths mp start (_to_visit it) →
  visit it edge_ depth_ = Some it' →
  on_paths mp start (_to_visit it').
Proof.
  intros Hmp Hp Htgt Hk Hst
    (mp' & b & Hmp1 & _ & _ & _ & _ & _ & _ & Hto)%visit_spec.
  assert (mp' = mp) as -> by congruence.
  rewrite Hto. destruct (_ && _); [|done].
  apply Forall_app. split; [|done].
  unfold pushed. apply Forall_reverse, Forall_fmap, Forall_forall.
  intros e He. simpl. exists e, p. rewrite Htgt. by split_and!; [..|lia].
Qed.

(** X8. Every node yielded after the first one is the frame of an edge
    that ends a path of enabled out-edges from the start vertex, and its
    depth is the length of that path. *)
Theorem yielded_nodes_lie_on_paths
    mp max_depth_ it0 n it edge_ depth_ rest it' :
  make_iterator mp max_depth_ = Some it0 →
  advance n it0 = Some it →
  _to_visit it = (edge_, depth_) :: rest →
  increment it = Some it' →
  ∃ e p,
    edge_ = Some e ∧
    path mp (vertex_of mp (get_current_edge mp)) (p ++ [e]) ∧
    node_frame (dereference it') = to_frame mp e ∧
    node_depth (dereference it') = Z.of_nat (length (p ++ [e])).
Proof.
  intros Hmk Hadv Hs Hinc.
  set (start := vertex_of mp (get_current_edge mp)).
  assert (_mp it = Some mp ∧ on_paths mp start (_to_visit it))
    as [Hmp Hst].
  { revert Hadv.
    apply (advance_invariant
             (λ it, _mp it = Some mp ∧ on_paths mp start (_to_visit it))).
    - intros i i' [Hmpi Hsti]
        [[_ ->]|(e & k & r & Hsi & Hv)]%increment_spec; [done|].
      rewrite Hsi in Hsti.
      apply Forall_cons in Hsti as [(e0 & p & He0 & Hp & Hin & Hk) Hr].
      simpl in He0, Hk. subst e.
      split.
      + apply visit_spec in Hv as (? & ? & Hm1 & _ & Hm2 & _).
        simpl in Hm1. congruence.
      + apply (visit_on_paths mp start (set_to_visit i r) (Some e0) k i'
                 (p ++ [e0])); simpl; try done.
        * by apply path_snoc.
        * apply path_target_snoc.
        * rewrite length_app. simpl. lia.
    - unfold make_iterator in Hmk. split.
      + by apply visit_spec in Hmk as (? & ? & [= <-] & _ & ? & _).
      + match type of Hmk with visit ?i ?e ?k = _ =>
          apply (visit_on_paths mp start i e k it0 []); simpl; try done end;
          constructor. }
  rewrite Hs in Hst.
  apply Forall_cons in Hst as [(e & p & He & Hp & Hin & Hk) _].
  simpl in He, Hk. subst edge_.
  apply increment_spec in Hinc as [[Hnil _]|(e' & k' & r & Hs' & Hv)];
    [congruence|].
  rewrite Hs in Hs'. inversion Hs'; subst e' k' r.
  apply visit_spec in Hv as (mp' & b & Hmp' & _ & _ & _ & _ & Hcur & _).
  simpl in Hmp'. assert (mp' = mp) as -> by congruence.
  exists e, p. split; [done|]. split; [by apply path_snoc|].
  unfold dereference. rewrite Hcur. simpl.
  split; [done|]. rewrite length_app. simpl. lia.
Qed.

End ForwardTraceShapeFacts.


(** * Properties of the test shell *)

Section TestShellFacts.
Import TestShell.
Context {color : Type}.
Implicit Types (sh : metadebugger_test_shell) (cs : list (call color)).

Lemma string_app_nil_l (b : string) : "" +:+ b = b.
Proof. reflexivity. Qed.

Lemma string_app_cons x (a b : string) :
  String x a +:+ b = String x (a +:+ b).
Proof. reflexivity. Qed.

Lemma string_app_assoc (a b c : string) : (a +:+ b) +:+ c = a +:+ (b +:+ c).
Proof.
  induction a as [|x a IH]; rewrite ?string_app_nil_l, ?string_app_cons;
    [done|by f_equal].
Qed.

Lemma string_app_empty_r (a : string) : a +:+ "" = a.
Proof.
  induction a as [|x a IH]; rewrite ?string_app_nil_l, ?string_app_cons;
    [done|by f_equal].
Qed.

Lemma perform_all_app sh cs1 cs2 :
  perform_all sh (cs1 ++ cs2) = perform_all (perform_all sh cs1) cs2.
Proof. apply fold_left_app. Qed.

Lemma output_without_clear cs : ∀ sh,
  call_clear_output ∉ cs →
  output (perform_all sh cs)
  = output sh +:+ foldr String.app "" (displayed cs).
Proof.
  induction cs as [|c cs IH]; intros sh Hno.
  - simpl. by rewrite string_app_empty_r.
  - apply not_elem_of_cons in Hno as [Hc Hno].
    change (perform_all sh (c :: cs)) with (perform_all (perform sh c) cs).
    rewrite (IH _ Hno). unfold displayed. rewrite bind_cons.
    destruct c; simpl; try done.
    by rewrite string_app_assoc.
Qed.

Lemma history_without_clear cs : ∀ sh,
  call_clear_history ∉ cs →
  history (perform_all sh cs) = history sh ++ added cs.
Proof.
  induction cs as [|c cs IH]; intros sh Hno.
  - simpl. by rewrite app_nil_r.
  - apply not_elem_of_cons in Hno as [Hc Hno].
    change (perform_all sh (c :: cs)) with (perform_all (perform sh c) cs).
    rewrite (IH _ Hno). unfold added. rewrite bind_cons.
    destruct c; simpl; try done.
    by rewrite <- app_assoc.
Qed.

(** X9. Whatever the shell went through before, after [clear_output] its
    output is the concatenation, in order, of the strings displayed since,
    whatever their colours and whatever else was called in between; the
    same holds of [clear_history] and the strings added to the history. *)
Theorem test_shell_records_since_clear sh (before after : list (call color)) :
  (call_clear_output ∉ after →
   get_output (perform_all sh (before ++ call_clear_output :: after))
   = foldr String.app "" (displayed after)) ∧
  (call_clear_history ∉ after →
   get_history (perform_all sh (before ++ call_clear_history :: after))
   = added after).
Proof.
  split; intros Hno; rewrite perform_all_app;
    change (perform_all ?s (?c :: after))
      with (perform_all (perform s c) after).
  - unfold get_output. by rewrite (output_without_clear after _ Hno).
  - unfold get_history. by rewrite (history_without_clear after _ Hno).
Qed.

End TestShellFacts.

(** * Properties of the deployment helpers *)

Section DeployFacts.
Import Deploy.
Import Stdlib.Strings.Ascii.

Lemma startswith_app (p r : string) : startswith p (p +:+ r) = true.
Proof.
  induction p as [|a p IH]; rewrite ?string_app_nil_l, ?string_app_cons;
    simpl; [done|].
  by rewrite bool_decide_eq_true_2, IH.
Qed.

Lemma slice_from_app (p r : string) :
  slice_from (String.length p) (p +:+ r) = r.
Proof.
  induction p as [|a p IH]; rewrite ?string_app_nil_l, ?string_app_cons;
    simpl; [by destruct r|done].
Qed.

Lemma startswith_inv (p s : string) :
  startswith p s = true → s = p +:+ slice_from (String.length p) s.
Proof.
  revert s. induction p as [|a p IH]; intros s; simpl;
    [rewrite string_app_nil_l; by destruct s|].
  destruct s as [|b s]; [done|].
  intros [Hab Hp]%andb_true_iff. apply bool_decide_eq_true in Hab as ->.
  rewrite string_app_cons. simpl. f_equal. by apply IH.
Qed.

(** X10. [remove_prefix] returns [r] exactly when the string is the prefix
    followed by [r], so it undoes prepending the prefix; on any other
    string it raises, naming the string and the prefix. *)
Theorem remove_prefix_round_trip (prefix_ string_ r : string) :
  remove_prefix prefix_ (prefix_ +:+ r) = Return r ∧
  (remove_prefix prefix_ string_ = Return r ↔ string_ = prefix_ +:+ r) ∧
  ((∀ r', string_ ≠ prefix_ +:+ r') ↔
   remove_prefix prefix_ string_
   = Raise ("String " +:+ string_ +:+ " does not start with " +:+ prefix_)).
Proof.
  assert (∀ r0, remove_prefix prefix_ (prefix_ +:+ r0) = Return r0) as Happ.
  { intros r0. unfold remove_prefix.
    by rewrite startswith_app, slice_from_app. }
  split_and!.
  - apply Happ.
  - split; [|intros ->; apply Happ].
    unfold remove_prefix.
    destruct (startswith prefix_ string_) eqn:Hsw; [|done].
    intros [= <-]. by apply startswith_inv.
  - unfold remove_prefix.
    destruct (startswith prefix_ string_) eqn:Hsw.
    + split; [|done]. intros Hne. destruct (Hne _ (startswith_inv _ _ Hsw)).
    + split; [done|]. intros _ r' ->. by rewrite startswith_app in Hsw.
Qed.

Lemma has_char_app c (a b : string) :
  has_char c (a +:+ b) = has_char c a || has_char c b.
Proof.
  induction a as [|x a IH]; rewrite ?string_app_nil_l, ?string_app_cons;
    simpl; [done|]. by rewrite IH, orb_assoc.
Qed.

Lemma escape_branch_name_has_no_slash (name_ : string) :
  has_char "/"%char (escape_branch_name name_) = false.
Proof.
  unfold escape_branch_name. induction name_ as [|c s IH]; simpl; [done|].
  rewrite IH. by destruct (bool_decide_reflect (c = "/"%char)) as [->|Hne];
    [|rewrite (bool_decide_eq_false_2 _ Hne)].
Qed.

(** X11. An escaped branch name contains no slash and has the length of
    the name; escaping again changes nothing, and a name without slash is
    left as it is. *)
Theorem escape_branch_name_no_slash (name_ : string) :
  has_char "/"%char (escape_branch_name name_) = false ∧
  String.length (escape_branch_name name_) = String.length name_ ∧
  escape_branch_name (escape_branch_name name_) = escape_branch_name name_ ∧
  (has_char "/"%char name_ = false ↔ escape_branch_name name_ = name_).
Proof.
  unfold escape_branch_name.
  induction name_ as [|c s (IH1 & IH2 & IH3 & IH4)]; simpl; [done|].
  destruct (bool_decide_reflect (c = "/"%char)) as [->|Hne]; simpl.
  - rewrite IH1, IH2, IH3. split_and!; try done.
    all: split; [done|]; by intros [= ?].
  - rewrite (bool_decide_eq_false_2 _ Hne). simpl.
    rewrite IH1, IH2, IH3. split_and!; try done.
    all: rewrite IH4; split; [by intros ->|by intros [= ?]].
Qed.

(** X12. [flatten] concatenates the sublists in order: it keeps every item
    of every sublist and nothing else, and distributes over [++]. *)
Theorem flatten_is_concatenation {A : Type} (l1 l2 : list (list A)) :
  flatten l1 = concat l1 ∧
  flatten (l1 ++ l2) = flatten l1 ++ flatten l2 ∧
  length (flatten l1) = sum_list (length <$> l1) ∧
  (∀ x, x ∈ flatten l1 ↔ ∃ l, l ∈ l1 ∧ x ∈ l).
Proof.
  assert (∀ l : list A, (l ≫= λ item, [item]) = l) as Hid.
  { induction l as [|x l IH]; csimpl; [done|]. by rewrite IH. }
  assert (∀ ll : list (list A), flatten ll = concat ll) as Hc.
  { unfold flatten. induction ll as [|l ll IH]; csimpl; [done|].
    by rewrite Hid, IH. }
  split_and!.
  - apply Hc.
  - rewrite !Hc. apply concat_app.
  - rewrite Hc. induction l1 as [|l ll IH]; csimpl; [done|].
    by rewrite length_app, IH.
  - intros x. rewrite Hc. induction l1 as [|l ll IH]; simpl.
    + split; [by intros ?%elem_of_nil|]. by intros (? & ?%elem_of_nil & _).
    + rewrite elem_of_app, IH. split.
      * intros [Hx|(l' & Hl' & Hx)].
        -- exists l. split; [apply list_elem_of_here|done].
        -- exists l'. split; [by apply list_elem_of_further|done].
      * intros (l' & [->|Hl']%elem_of_cons & Hx); [by left|].
        right. by exists l'.
Qed.

Lemma basename_no_slash (s : string) :
  has_char "/"%char s = false → basename s = s.
Proof. destruct s as [|c s]; simpl; [done|]. by intros ->. Qed.

Lemma basename_in_directory (dir file : string) :
  has_char "/"%char file = false →
  basename (dir +:+ "/" +:+ file) = file.
Proof.
  intros Hfile.
  induction dir as [|c dir IH]; rewrite ?string_app_nil_l, ?string_app_cons.
  - simpl. rewrite string_app_nil_l. by apply basename_no_slash.
  - change (basename (String c (dir +:+ "/" +:+ file)))
      with (if has_char "/"%char (String c (dir +:+ "/" +:+ file))
            then basename (dir +:+ "/" +:+ file)
            else String c (dir +:+ "/" +:+ file)).
    simpl. rewrite !has_char_app. simpl. by rewrite !orb_true_r.
Qed.

(** X13. A link named [name_] + "_" + version in any directory has that
    version, provided neither the name nor the version contains a slash;
    in particular the link the deployer names after an escaped branch name
    has the escaped branch name as version. *)
Theorem version_of_deployed_link (dir name_ version branch : string) :
  has_char "/"%char name_ = false →
  has_char "/"%char version = false →
  version_of name_ (dir +:+ "/" +:+ name_ +:+ "_" +:+ version)
  = Return version ∧
  version_of name_
    (dir +:+ "/" +:+ name_ +:+ "_" +:+ escape_branch_name branch)
  = Return (escape_branch_name branch).
Proof.
  intros Hname Hver.
  assert (∀ v, has_char "/"%char v = false →
               version_of name_ (dir +:+ "/" +:+ name_ +:+ "_" +:+ v)
               = Return v) as Hgen.
  { intros v Hv. unfold version_of.
    rewrite basename_in_directory
      by (rewrite !has_char_app, Hname, Hv; done).
    replace (name_ +:+ "_" +:+ v) with ((name_ +:+ "_") +:+ v)
      by apply string_app_assoc.
    by rewrite startswith_app, slice_from_app. }
  split; [by apply Hgen|].
  apply Hgen. apply escape_branch_name_has_no_slash.
Qed.

(** One round of the loop: the name is bound afterwards, to the list it was
    bound to or to a new one, and that list alone is written. *)
Lemma merge_entry_spec (versions1 : gmap string list_id)
    (lists : gmap list_id (list string)) (name_ : string) (l2 : list_id) :
  is_Some (lists !! l2) →
  ∃ l1,
    (merge_entry (versions1, lists) (name_, l2)).1 !! name_ = Some l1 ∧
    (∀ n, n ≠ name_ →
          (merge_entry (versions1, lists) (name_, l2)).1 !! n
          = versions1 !! n) ∧
    (versions1 !! name_ = Some l1 ∨
     (versions1 !! name_ = None ∧ lists !! l1 = None)) ∧
    (merge_entry (versions1, lists) (name_, l2)).2
    = <[l1 := default [] (versions_at versions1 lists name_)
              ++ default [] (lists !! l2)]> lists.
Proof.
  intros Hl2. unfold merge_entry, versions_at. simpl.
  destruct (versions1 !! name_) as [l1|] eqn:Hk; simpl.
  - rewrite Hk. simpl. exists l1. split_and!; try done. by left.
  - rewrite lookup_insert_eq. simpl.
    set (l := fresh (dom lists)).
    assert (lists !! l = None) as Hfresh
      by (apply not_elem_of_dom, is_fresh).
    assert (l ≠ l2) as Hne by (intros ->; rewrite Hfresh in Hl2;
                               by destruct Hl2).
    exists l. split_and!.
    + apply lookup_insert_eq.
    + intros n Hn. by rewrite lookup_insert_ne.
    + by right.
    + rewrite lookup_insert_eq, lookup_insert_ne by done. simpl.
      by rewrite insert_insert_eq.
Qed.

(** The loop, for lists of [versions1] that are pairwise distinct objects
    and none of which is a list of the entries to merge. *)
Lemma merge_items_spec (items : list (string * list_id)) :
  ∀ (versions1 : gmap string list_id) (lists : gmap list_id (list string)),
    NoDup items.*1 →
    (∀ n1 n2 l, versions1 !! n1 = Some l → versions1 !! n2 = Some l →
                n1 = n2) →
    (∀ n l, versions1 !! n = Some l → is_Some (lists !! l)) →
    (∀ l, l ∈ items.*2 → is_Some (lists !! l)) →
    (∀ n l, versions1 !! n = Some l → l ∉ items.*2) →
    (∀ name_,
       versions_at (merge_items (versions1, lists) items).1
                   (merge_items (versions1, lists) items).2 name_ =
       match (list_to_map items : gmap string list_id) !! name_ with
       | Some l2 =>
           Some (default [] (versions_at versions1 lists name_)
                 ++ default [] (lists !! l2))
       | None => versions_at versions1 lists name_
       end) ∧
    (∀ l, is_Some (lists !! l) → (∀ n, versions1 !! n ≠ Some l) →
          (merge_items (versions1, lists) items).2 !! l = lists !! l).
Proof.
  induction items as [|[k l2] items IH];
    intros versions1 lists Hnd Hinj Hwf Hitems Hdisj.
  - split; [|done]. intros name_. simpl. by rewrite lookup_empty.
  - rewrite fmap_cons in Hnd. apply NoDup_cons in Hnd as [Hk Hnd].
    change (merge_items (versions1, lists) ((k, l2) :: items))
      with (merge_items (merge_entry (versions1, lists) (k, l2)) items).
    assert (is_Some (lists !! l2)) as Hl2
      by (apply Hitems; rewrite fmap_cons; apply list_elem_of_here).
    destruct (merge_entry_spec versions1 lists k l2 Hl2)
      as (l1 & Hbound & Hother & Horigin & Hlists).
    destruct (merge_entry (versions1, lists) (k, l2)) as [v1a ha].
    simpl in Hbound, Hother, Hlists. subst ha.
    set (new := default [] (versions_at versions1 lists k)
                ++ default [] (lists !! l2)).
    (* the list written is no list of another name, nor of a later entry *)
    assert (∀ n l, n ≠ k → versions1 !! n = Some l → l ≠ l1) as Hfar.
    { intros n l Hn Hl ->. destruct Horigin as [Hk1|[_ Hnone]].
      - by apply Hn, (Hinj n k l1).
      - apply Hwf in Hl. rewrite Hnone in Hl. by destruct Hl. }
    assert (∀ l, l ∈ items.*2 → l ≠ l1) as Hlater.
    { intros l Hl ->. destruct Horigin as [Hk1|[_ Hnone]].
      - apply (Hdisj k l1 Hk1). rewrite fmap_cons. by apply list_elem_of_further.
      - assert (is_Some (lists !! l1)) as Hs
          by (apply Hitems; rewrite fmap_cons; by apply list_elem_of_further).
        rewrite Hnone in Hs. by destruct Hs. }
    assert (∀ n l, v1a !! n = Some l → n = k ∧ l = l1 ∨
                                       n ≠ k ∧ versions1 !! n = Some l)
      as Hcases.
    { intros n l Hl. destruct (decide (n = k)) as [->|Hn].
      - left. split; [done|]. congruence.
      - right. split; [done|]. by rewrite <- Hother. }
    destruct (IH v1a (<[l1 := new]> lists)) as [Hat Hframe].
    + done.
    + intros n1 n2 l H1 H2.
      destruct (Hcases _ _ H1) as [[-> ->]|[Hn1 H1']];
        destruct (Hcases _ _ H2) as [[-> Hl]|[Hn2 H2']]; try done.
      * by destruct (Hfar n2 l1 Hn2 H2').
      * subst l. by destruct (Hfar n1 l1 Hn1 H1').
      * by apply (Hinj n1 n2 l).
    + intros n l Hl. destruct (decide (l = l1)) as [->|Hne].
      * rewrite lookup_insert_eq. by eexists.
      * rewrite lookup_insert_ne by done.
        destruct (Hcases _ _ Hl) as [[_ ->]|[_ Hl']]; [done|].
        by apply (Hwf n).
    + intros l Hl. rewrite lookup_insert_ne by (by apply not_eq_sym, Hlater).
      apply Hitems. rewrite fmap_cons. by apply list_elem_of_further.
    + intros n l Hl Hin. destruct (Hcases _ _ Hl) as [[_ ->]|[_ Hl']].
      * by apply (Hlater l1).
      * apply (Hdisj n l Hl'). rewrite fmap_cons.
        by apply list_elem_of_further.
    + split.
      * intros name_. rewrite Hat. clear Hat Hframe.
        destruct (decide (name_ = k)) as [->|Hne].
        -- rewrite (not_elem_of_list_to_map_1 _ _ Hk).
           rewrite list_to_map_cons, lookup_insert_eq.
           unfold versions_at at 1. rewrite Hbound. simpl.
           by rewrite lookup_insert_eq.
        -- rewrite list_to_map_cons, lookup_insert_ne by done.
           assert (versions_at v1a (<[l1 := new]> lists) name_
                   = versions_at versions1 lists name_) as ->.
           { unfold versions_at. rewrite (Hother _ Hne).
             destruct (versions1 !! name_) as [l|] eqn:Hl; simpl; [|done].
             rewrite lookup_insert_ne; [done|].
             by apply not_eq_sym, (Hfar name_). }
           destruct (list_to_map items !! name_) as [l2'|] eqn:Hl2';
             [|done].
           rewrite lookup_insert_ne; [done|].
           apply not_eq_sym, Hlater.
           apply elem_of_list_to_map_2 in Hl2'.
           apply list_elem_of_fmap. by exists (name_, l2').
      * intros l Hl Hfree.
        assert (l ≠ l1) as Hne.
        { intros ->. destruct Horigin as [Hk1|[_ Hnone]].
          - by apply (Hfree k).
          - rewrite Hnone in Hl. by destruct Hl. }
        rewrite Hframe.
        -- by rewrite lookup_insert_ne.
        -- by rewrite lookup_insert_ne.
        -- intros n Hn. destruct (Hcases _ _ Hn) as [[_ ?]|[_ Hn']];
             [done|]. by apply (Hfree n).
Qed.

(** With one list object under two names the other name is extended too:
    the store keeps the sharing. *)
Example merge_shared_list_object :
  let versions1 : gmap string list_id := {["a" := 0%nat; "b" := 0%nat]} in
  let versions2 : gmap string list_id := {["a" := 1%nat]} in
  let lists : gmap list_id (list string) :=
    {[0%nat := []; 1%nat := ["x"]]} in
  let r := merge_external_versions_to versions1 versions2 lists in
  versions_at r.1 r.2 "a" = Some ["x"] ∧ versions_at r.1 r.2 "b" = Some ["x"].
Proof. split; vm_compute; reflexivity. Qed.

(** X14. When the lists of [versions1] are pairwise distinct objects, none
    of them shared with [versions2], merging binds every name of
    [versions2] to what [versions1] held for it (nothing if it had no
    entry) followed by what [versions2] holds, leaves what [versions1]
    holds for every other name, and writes no list that [versions1] does
    not bind, in whatever order the entries of [versions2] are iterated
    ([merge_external_versions_to] is the order of [map_to_list]). *)
Theorem merge_external_versions_lookup
    (versions1 versions2 : gmap string list_id)
    (lists : gmap list_id (list string))
    (items : list (string * list_id)) (name_ : string) :
  items ≡ₚ map_to_list versions2 →
  (∀ n1 n2 l, versions1 !! n1 = Some l → versions1 !! n2 = Some l →
              n1 = n2) →
  (∀ n1 n2 l, versions1 !! n1 = Some l → versions2 !! n2 ≠ Some l) →
  (∀ n l, versions1 !! n = Some l → is_Some (lists !! l)) →
  (∀ n l, versions2 !! n = Some l → is_Some (lists !! l)) →
  versions_at (merge_items (versions1, lists) items).1
              (merge_items (versions1, lists) items).2 name_ =
  match versions2 !! name_ with
  | Some l2 =>
      Some (default [] (versions_at versions1 lists name_)
            ++ default [] (lists !! l2))
  | None => versions_at versions1 lists name_
  end ∧
  (∀ l, is_Some (lists !! l) → (∀ n, versions1 !! n ≠ Some l) →
        (merge_items (versions1, lists) items).2 !! l = lists !! l).
Proof.
  intros Hperm Hinj Hdisj Hwf1 Hwf2.
  assert (NoDup items.*1) as Hnd.
  { rewrite Hperm. apply NoDup_fst_map_to_list. }
  assert ((list_to_map items : gmap string list_id) = versions2) as Hmap.
  { rewrite (list_to_map_proper _ _ Hnd Hperm). apply list_to_map_to_list. }
  assert (∀ l, l ∈ items.*2 → ∃ n, versions2 !! n = Some l) as Hin.
  { intros l ([n l'] & -> & Hnl)%list_elem_of_fmap.
    rewrite Hperm in Hnl. apply elem_of_map_to_list in Hnl. by exists n. }
  destruct (merge_items_spec items versions1 lists Hnd Hinj Hwf1)
    as [Hat Hframe].
  - intros l [n Hn]%Hin. by apply (Hwf2 n).
  - intros n l Hl [n2 Hn2]%Hin. by apply (Hdisj n n2 l).
  - split; [|done]. by rewrite Hat, Hmap.
Qed.

End DeployFacts.

(** ** The further properties on concrete inputs *)

Lemma finished_is_absorbing_witness :
  ∃ it0 it,
    make_iterator (diamond minimized None unmarked) None = Some it0 ∧
    advance 5 it0 = Some it ∧
    _finished it = true ∧
    _to_visit it = [] ∧
    advance 3 it = Some it.
Proof.
  pose_value it0 (make_iterator (diamond minimized None unmarked) None).
  pose_value it (advance 5 it0).
  assert (make_iterator (diamond minimized None unmarked) None = Some it0)
    as H1 by by_evaluation.
  assert (advance 5 it0 = Some it) as H2 by by_evaluation.
  assert (_finished it = true) as H3 by by_evaluation.
  exists it0, it. do 3 (split; [assumption|]).
  destruct (finished_is_absorbing (diamond minimized None unmarked) None
              it0 5 it H1 H2 H3) as [Hs Hm].
  split; [exact Hs|exact (Hm 3%nat)].
Defined.

Lemma depth_grows_by_at_most_one_witness :
  ∃ it0 it it',
    make_iterator (diamond full None unmarked) None = Some it0 ∧
    advance 2 it0 = Some it ∧
    increment it = Some it' ∧
    node_depth (dereference it0) = 0 ∧
    0 ≤ node_depth (dereference it) ∧
    node_depth (dereference it') ≤ node_depth (dereference it) + 1.
Proof.
  pose_value it0 (make_iterator (diamond full None unmarked) None).
  pose_value it (advance 2 it0).
  pose_value it' (increment it).
  assert (make_iterator (diamond full None unmarked) None = Some it0)
    as H1 by by_evaluation.
  assert (advance 2 it0 = Some it) as H2 by by_evaluation.
  assert (increment it = Some it') as H3 by by_evaluation.
  exists it0, it, it'. do 3 (split; [assumption|]).
  exact (depth_grows_by_at_most_one (diamond full None unmarked) None
           it0 2 it it' H1 H2 H3).
Defined.

Lemma child_count_is_number_pushed_witness :
  let mp := diamond minimized None unmarked in
  let it := mk_iterator false None (Some mp) unmarked []
                        (mk_call_graph_node ""%string 0 0) in
  ∃ it',
    visit it None 0 = Some it' ∧
    ∃ new,
      _to_visit it' = new ++ _to_visit it ∧
      length new = node_number_of_children (dereference it') ∧
      Forall (λ en, en.2 = 0 + 1 ∧
                    ∃ e, en.1 = Some e ∧
                         e ∈ get_filtered_out_edges mp (vertex_of mp None))
             new.
Proof.
  intros mp it.
  pose_value it' (visit it None 0).
  assert (visit it None 0 = Some it') as H1 by by_evaluation.
  exists it'. split; [exact H1|].
  refine (child_count_is_number_pushed mp it None 0 it' eq_refl _ H1).
  intros v. reflexivity.
Defined.

Lemma discovered_only_gains_marks_witness :
  let mp := diamond minimized None unmarked in
  ∃ it0 it,
    make_iterator mp None = Some it0 ∧
    advance 2 it0 = Some it ∧
    length (_discovered it) = length (_discovered it0) ∧
    (∀ v, _discovered it0 !! v = Some true →
          _discovered it !! v = Some true) ∧
    (get_mode mp = full → _discovered it = _discovered it0).
Proof.
  intros mp.
  pose_value it0 (make_iterator mp None).
  pose_value it (advance 2 it0).
  assert (make_iterator mp None = Some it0) as H1 by by_evaluation.
  assert (advance 2 it0 = Some it) as H2 by by_evaluation.
  exists it0, it. do 2 (split; [assumption|]).
  refine (discovered_only_gains_marks mp it0 2 it _ H2). by_evaluation.
Defined.

Lemma minimized_yields_linearly_many_witness :
  let mp := diamond minimized None unmarked in
  ∃ it0 fuel nodes,
    make_iterator mp None = Some it0 ∧
    collect fuel it0 = Some nodes ∧
    (length nodes ≤ S (unmarked_out_degree mp 0 (discovered mp)))%nat.
Proof.
  refine (minimized_yields_linearly_many (diamond minimized None unmarked)
            None (diamond_in_range _ _) _).
  discriminate.
Defined.

Lemma full_mode_yields_unfolding_witness :
  let mp := diamond full None unmarked in
  ∃ it0 fuel,
    make_iterator mp None = Some it0 ∧
    collect fuel it0 =
    Some (unfolding mp (diamond_rank (vertex_of mp (get_current_edge mp)))
                    (get_current_edge mp) 0).
Proof.
  exact (full_mode_yields_unfolding (diamond full None unmarked) diamond_rank
           eq_refl (diamond_in_range _ _) (diamond_nothing_discovered _ _)
           (diamond_acyclic _ _ _)).
Defined.

Lemma nonpositive_ceiling_yields_start_only_witness :
  let mp := diamond full None unmarked in
  0 ≤ 0 ∧
  ∃ it0,
    make_iterator mp (Some 0) = Some it0 ∧
    _to_visit it0 = [] ∧
    collect 1 it0 =
    Some [mk_call_graph_node (frame_of mp (get_current_edge mp)) 0 0%nat].
Proof.
  intros mp. split; [lia|].
  refine (nonpositive_ceiling_yields_start_only mp 0 _ _); [lia|].
  simpl. lia.
Defined.

Lemma yielded_nodes_lie_on_paths_witness :
  let mp := diamond full None unmarked in
  ∃ it0 it it',
    make_iterator mp None = Some it0 ∧
    advance 1 it0 = Some it ∧
    _to_visit it = (Some 3%nat, 2) :: [(Some 0%nat, 1)] ∧
    increment it = Some it' ∧
    ∃ e p,
      Some 3%nat = Some e ∧
      path mp (vertex_of mp (get_current_edge mp)) (p ++ [e]) ∧
      node_frame (dereference it') = to_frame mp e ∧
      node_depth (dereference it') = Z.of_nat (length (p ++ [e])).
Proof.
  intros mp.
  pose_value it0 (make_iterator mp None).
  pose_value it (advance 1 it0).
  pose_value it' (increment it).
  assert (make_iterator mp None = Some it0) as H1 by by_evaluation.
  assert (advance 1 it0 = Some it) as H2 by by_evaluation.
  assert (_to_visit it = (Some 3%nat, 2) :: [(Some 0%nat, 1)]) as H3
    by by_evaluation.
  assert (increment it = Some it') as H4 by by_evaluation.
  exists it0, it, it'. do 4 (split; [assumption|]).
  exact (yielded_nodes_lie_on_paths mp None it0 1 it (Some 3%nat) 2
           [(Some 0%nat, 1)] it' H1 H2 H3 H4).
Defined.

Lemma test_shell_records_since_clear_witness :
  let sh := TestShell.mk_shell ["evaluate int"] "int" in
  let after : list (TestShell.call unit) :=
    [TestShell.call_display "Argument " None;
     TestShell.call_add_history "evaluate";
     TestShell.call_display "expected" (Some ())] in
  (TestShell.call_clear_output ∉ after) ∧
  (TestShell.get_output
     (TestShell.perform_all sh
        ([TestShell.call_run] ++ (TestShell.call_clear_output :: after)))
   = "Argument expected").
Proof.
  intros sh after.
  assert (TestShell.call_clear_output ∉ after) as Hno.
  { intros Hin. repeat (apply elem_of_cons in Hin as [Hin|Hin];
                        [discriminate|]).
    by apply elem_of_nil in Hin. }
  split; [exact Hno|].
  exact (proj1 (test_shell_records_since_clear sh [TestShell.call_run] after)
           Hno).
Defined.

Section DeployExamples.
Import Stdlib.Strings.Ascii.

Lemma version_of_deployed_link_witness :
  Deploy.has_char "/"%char "mpl" = false ∧
  Deploy.has_char "/"%char "1.2" = false ∧
  Deploy.version_of "mpl" ("/srv/include" +:+ "/" +:+ "mpl" +:+ "_" +:+ "1.2")
  = Deploy.Return "1.2" ∧
  Deploy.version_of "mpl"
    ("/srv/include" +:+ "/" +:+ "mpl" +:+ "_"
     +:+ Deploy.escape_branch_name "feature/x")
  = Deploy.Return (Deploy.escape_branch_name "feature/x").
Proof.
  split; [reflexivity|]. split; [reflexivity|].
  exact (version_of_deployed_link "/srv/include" "mpl" "1.2" "feature/x"
           eq_refl eq_refl).
Defined.

Lemma merge_external_versions_lookup_witness :
  let versions1 : gmap string nat := {["mpl" := 0%nat]} in
  let versions2 : gmap string nat := {["mpl" := 1%nat]} in
  let lists : gmap nat (list string) :=
    {[0%nat := ["1.0"]; 1%nat := ["1.2"]]} in
  map_to_list versions2 ≡ₚ map_to_list versions2 ∧
  Deploy.versions_at
    (Deploy.merge_external_versions_to versions1 versions2 lists).1
    (Deploy.merge_external_versions_to versions1 versions2 lists).2 "mpl" =
  match versions2 !! "mpl" with
  | Some l2 =>
      Some (default [] (Deploy.versions_at versions1 lists "mpl")
            ++ default [] (lists !! l2))
  | None => Deploy.versions_at versions1 lists "mpl"
  end.
Proof.
  intros versions1 versions2 lists. split; [reflexivity|].
  refine (proj1 (merge_external_versions_lookup versions1 versions2 lists
                   (map_to_list versions2) "mpl" (reflexivity _) _ _ _ _)).
  - intros n1 n2 l [<- _]%lookup_singleton_Some [<- _]%lookup_singleton_Some.
    reflexivity.
  - intros n1 n2 l [_ <-]%lookup_singleton_Some [_ Hl]%lookup_singleton_Some.
    discriminate.
  - intros n l [_ <-]%lookup_singleton_Some. vm_compute. by eexists.
  - intros n l [_ <-]%lookup_singleton_Some. vm_compute. by eexists.
Defined.

End DeployExamples.
